(** * The presence-and-relay core of the signaling server (server.js)

    A shallow embedding of the socket.io part of [server.js]: the fixed-window
    rate limiter ([isRateLimited]), the presence registry ([userSockets],
    [normKey]) and the event handlers installed by [io.on("connection", ...)].

    The process-wide tables of the program ([rateLimit], [userSockets]) and the
    per-socket slot [socket.data.pubKey] are threaded explicitly through every
    handler as a [server] record.  [Date.now()] is an input of every handler.
    Handlers run to completion one at a time (single-threaded event loop), so
    an execution is a list of handled events. *)

From Stdlib Require Import ZArith List String Ascii Bool Lia.
From stdpp Require Import base gmap strings list fin_maps fin_sets.

Local Open Scope string_scope.
Local Open Scope Z_scope.

(** ** JavaScript values and strings *)

Module Js.

(** The values the handlers receive as identifiers and opaque payloads.  An
    absent argument is [undefined].  Strings are sequences of code units;
    the model covers the code units [0..255].  Other JavaScript values
    (numbers, booleans, arrays, objects) are not modelled: what is stated of
    a [value] is stated of strings and of absent arguments. *)
Inductive value :=
| VUndefined
| VString (s : string).

#[global] Instance value_eq_dec : EqDecision value.
Proof. solve_decision. Defined.

(** [if (v)] / [!v]: [undefined] and the empty string are falsy. *)
Definition truthy (v : value) : bool :=
  match v with
  | VUndefined => false
  | VString s => negb (String.eqb s "")
  end.

(** Property-key coercion of [obj[v]]. *)
Definition to_key (v : value) : string :=
  match v with
  | VUndefined => "undefined"
  | VString s => s
  end.

(** The class [\s] restricted to the code units [0..255]: TAB, LF, VT, FF,
    CR, SPACE and NO-BREAK SPACE. *)
Definition is_space (c : ascii) : bool :=
  let n := nat_of_ascii c in
  ((9 <=? n)%nat && (n <=? 13)%nat) || (n =? 32)%nat || (n =? 160)%nat.

(** [s.replace(/\s+/g, '')]: every maximal run of white space is replaced
    by the empty string, i.e. every white-space code unit is dropped. *)
Fixpoint replace_ws (s : string) : string :=
  match s with
  | EmptyString => EmptyString
  | String c r => if is_space c then replace_ws r else String c (replace_ws r)
  end.

(** *** Plain objects used as maps

    [const userSockets = {}] is a plain object: besides its own properties it
    has the properties of [Object.prototype].  The own properties are a
    finite map from names to the strings stored. *)

(** The names of the properties of [Object.prototype]: eleven methods and
    the accessor [__proto__]. *)
Definition Object_prototype : list string :=
  ["constructor"; "__defineGetter__"; "__defineSetter__"; "hasOwnProperty";
   "__lookupGetter__"; "__lookupSetter__"; "isPrototypeOf";
   "propertyIsEnumerable"; "toString"; "valueOf"; "__proto__";
   "toLocaleString"].

(** What reading [obj[k]] yields: [undefined], the string stored under an own
    property, or what [Object.prototype] holds under that name (a function,
    or [Object.prototype] itself for [__proto__]). *)
Inductive property :=
| Undefined
| Own (v : string)
| Inherited (name : string).

#[global] Instance property_eq_dec : EqDecision property.
Proof. solve_decision. Defined.

(** [obj[k]]: an own property hides an inherited one. *)
Definition obj_get (obj : gmap string string) (k : string) : property :=
  match obj !! k with
  | Some v => Own v
  | None => if bool_decide (k ∈ Object_prototype) then Inherited k else Undefined
  end.

(** [obj[k] = v] for a string [v].  The assignment writes the own property,
    creating it if need be, except for the name [__proto__] when there is no
    own property of that name: then the setter of [Object.prototype] runs,
    which ignores a value that is not an object. *)
Definition obj_set (obj : gmap string string) (k v : string) : gmap string string :=
  if bool_decide (k = "__proto__" ∧ obj !! k = None) then obj
  else <[k := v]> obj.

(** [delete obj[k]] removes the own property, if there is one; it is
    [delete k obj] on the finite map. *)

End Js.
Import Js.

(** [function normKey(k){ return (typeof k === 'string') ? k.replace(/\s+/g,'') : k; }] *)
Definition normKey (k : value) : value :=
  match k with
  | VString s => VString (replace_ws s)
  | _ => k
  end.

(** ** Sockets *)

(** What the handlers read of a socket object: [socket.id] and
    [socket.handshake.address].  Both are fixed for the life of the socket. *)
Record socket := Socket {
  id : string;
  address : string;
}.

(** ** Simple rate limiting *)

(** A value of the [rateLimit] Map: [{ count, startTime }]. *)
Record rl_record := RlRecord {
  count : Z;
  startTime : Z;
}.

Definition LIMIT : Z := 20.
Definition TIME_FRAME : Z := 60 * 1000.

(** [isRateLimited(socket)], with [Date.now()] passed as [now] and the
    [rateLimit] Map passed in and returned.  [record.count++] mutates the
    object held by the Map, which is an update of the Map at [ip]. *)
Definition isRateLimited (now : Z) (sk : socket) (rateLimit : gmap string rl_record)
  : bool * gmap string rl_record :=
  let ip := address sk in
  match rateLimit !! ip with
  | None =>
      (false, <[ip := {| count := 1; startTime := now |}]> rateLimit)
  | Some record =>
      if now - startTime record >? TIME_FRAME then
        (false, <[ip := {| count := 1; startTime := now |}]> rateLimit)
      else if count record >=? LIMIT then
        (true, rateLimit)
      else
        (false, <[ip := {| count := count record + 1;
                           startTime := startTime record |}]> rateLimit)
  end.

(** A run of checks, in the order in which the event loop makes them; each
    check is the time at which it runs and the socket it is made for. *)
Fixpoint run_checks (cs : list (Z * socket)) (rateLimit : gmap string rl_record)
  : list bool * gmap string rl_record :=
  match cs with
  | [] => ([], rateLimit)
  | (now, sk) :: cs' =>
      let '(b, rl1) := isRateLimited now sk rateLimit in
      let '(bs, rl2) := run_checks cs' rl1 in
      (b :: bs, rl2)
  end.

(** ** Server state *)

(** The mutable state the handlers share: the [rateLimit] Map, the
    [userSockets] object, the slot [socket.data.pubKey] of every socket
    ([data], by [socket.id]; no entry is [undefined]) and socket.io's room
    table.  [userSockets] is the finite map of the object's own properties;
    it is read with [obj_get] and written with [obj_set], which bring in
    what the object inherits from [Object.prototype]. *)
Record server := Server {
  rateLimit : gmap string rl_record;
  userSockets : gmap string string;
  data : gmap string value;
  rooms : gmap string (gset string);
}.

Definition init : server :=
  {| rateLimit := ∅; userSockets := ∅; data := ∅; rooms := ∅ |}.

Definition set_rateLimit (rl : gmap string rl_record) (st : server) : server :=
  {| rateLimit := rl; userSockets := userSockets st;
     data := data st; rooms := rooms st |}.

Definition set_userSockets (us : gmap string string) (st : server) : server :=
  {| rateLimit := rateLimit st; userSockets := us;
     data := data st; rooms := rooms st |}.

Definition set_data (pk : gmap string value) (st : server) : server :=
  {| rateLimit := rateLimit st; userSockets := userSockets st;
     data := pk; rooms := rooms st |}.

Definition set_rooms (rs : gmap string (gset string)) (st : server) : server :=
  {| rateLimit := rateLimit st; userSockets := userSockets st;
     data := data st; rooms := rs |}.

(** [socket.data.pubKey] *)
Definition data_pubKey (st : server) (sk : socket) : value :=
  default VUndefined (data st !! id sk).

(** [userSockets[normKey(to)]], the lookup every relay handler starts with. *)
Definition resolve (st : server) (to : string) : property :=
  obj_get (userSockets st) (to_key (normKey (VString to))).

(** ** Outbound traffic *)

(** The argument of an outbound event: [{ from }], [{ from, callType }], or a
    payload handed on as it came. *)
Inductive payload :=
| PFrom (from : value)
| PFromCall (from : value) (callType : value)
| POpaque (v : value).

(** The two socket.io calls the handlers make:
    [io.to(room).emit(name, p)] and [socket.to(room).emit(name, p)].  The
    room of [io.to] is what the registry lookup gave: a string, or
    ([IoToObject]) the object that [Object.prototype] holds under the name
    [prop]. *)
Inductive emit :=
| IoTo (room : string) (name : string) (p : payload)
| IoToObject (prop : string) (name : string) (p : payload)
| SocketTo (sender : string) (room : string) (name : string) (p : payload).

(** ** Inbound events *)

(** The events a client can send, with their arguments destructured as the
    handlers do.  The fields [to] and [from] are strings (the handlers call
    [.slice] on them); [pubKey], [callType] and [payload] are any value. *)
Inductive event :=
| Register (pubKey : value)
| RequestConnection (to from : string)
| AcceptConnection (to from : string)
| CallRequest (to from : string) (callType : value)
| CallAccepted (to from : string)
| CallRejected (to from : string)
| CallEnded (to from : string)
| Join (room : string)
| Signal (room : string) (payload : value)
| Auth (room : string) (payload : value)
| Disconnect.

(** ** Handlers *)

(** [socket.on("register", (pubKey) => ...)] *)
Definition on_register (now : Z) (sk : socket) (pubKey : value) (st : server)
  : server * list emit :=
  let '(limited, rl) := isRateLimited now sk (rateLimit st) in
  let st := set_rateLimit rl st in
  if limited then (st, [])
  else if negb (truthy pubKey) then (st, [])
  else
    let key := normKey pubKey in
    let st := set_userSockets (obj_set (userSockets st) (to_key key) (id sk)) st in
    let st := set_data (<[id sk := key]> (data st)) st in
    (st, []).

(** [socket.on("request-connection", ({ to, from }) => ...)] *)
Definition on_request_connection (now : Z) (sk : socket) (to from : string)
  (st : server) : server * list emit :=
  let '(limited, rl) := isRateLimited now sk (rateLimit st) in
  let st := set_rateLimit rl st in
  if limited then (st, [])
  else
    match resolve st to with
    | Own targetId =>
        if truthy (VString targetId)
        then (st, [IoTo targetId "incoming-request"
                     (PFrom (normKey (VString from)))])
        else (st, [])
    | Inherited prop =>
        (st, [IoToObject prop "incoming-request"
                (PFrom (normKey (VString from)))])
    | Undefined => (st, [])
    end.

(** [socket.on("accept-connection", ({ to, from }) => ...)] *)
Definition on_accept_connection (to from : string) (st : server)
  : server * list emit :=
  match resolve st to with
  | Own targetId =>
      if truthy (VString targetId)
      then (st, [IoTo targetId "connection-accepted"
                   (PFrom (normKey (VString from)))])
      else (st, [])
  | Inherited prop =>
      (st, [IoToObject prop "connection-accepted"
              (PFrom (normKey (VString from)))])
  | Undefined => (st, [])
  end.

(** [socket.on("call-request", ({ to, from, callType }) => ...)] *)
Definition on_call_request (to from : string) (callType : value) (st : server)
  : server * list emit :=
  match resolve st to with
  | Own targetId =>
      if truthy (VString targetId)
      then (st, [IoTo targetId "incoming-call"
                   (PFromCall (normKey (VString from)) callType)])
      else (st, [])
  | Inherited prop =>
      (st, [IoToObject prop "incoming-call"
              (PFromCall (normKey (VString from)) callType)])
  | Undefined => (st, [])
  end.

(** [socket.on("call-accepted", ({ to, from }) => ...)] *)
Definition on_call_accepted (to from : string) (st : server)
  : server * list emit :=
  match resolve st to with
  | Own targetId =>
      if truthy (VString targetId)
      then (st, [IoTo targetId "call-accepted"
                   (PFrom (normKey (VString from)))])
      else (st, [])
  | Inherited prop =>
      (st, [IoToObject prop "call-accepted"
              (PFrom (normKey (VString from)))])
  | Undefined => (st, [])
  end.

(** [socket.on("call-rejected", ({ to, from }) => ...)] *)
Definition on_call_rejected (to from : string) (st : server)
  : server * list emit :=
  match resolve st to with
  | Own targetId =>
      if truthy (VString targetId)
      then (st, [IoTo targetId "call-rejected"
                   (PFrom (normKey (VString from)))])
      else (st, [])
  | Inherited prop =>
      (st, [IoToObject prop "call-rejected"
              (PFrom (normKey (VString from)))])
  | Undefined => (st, [])
  end.

(** [socket.on("call-ended", ({ to, from }) => ...)] *)
Definition on_call_ended (to from : string) (st : server)
  : server * list emit :=
  match resolve st to with
  | Own targetId =>
      if truthy (VString targetId)
      then (st, [IoTo targetId "call-ended"
                   (PFrom (normKey (VString from)))])
      else (st, [])
  | Inherited prop =>
      (st, [IoToObject prop "call-ended"
              (PFrom (normKey (VString from)))])
  | Undefined => (st, [])
  end.

(** The members of a room in socket.io's room table.  The handlers change
    the table through [socket.join] only; what socket.io itself does to it
    when a socket opens or closes is outside the handlers, and the theorems
    below hold for every room table. *)
Definition members (st : server) (room : string) : gset string :=
  default ∅ (rooms st !! room).

(** [socket.on("join", (room) => { socket.join(room); ... })].  [socket.join]
    is socket.io's: it adds the socket to the member set of the room. *)
Definition on_join (sk : socket) (room : string) (st : server)
  : server * list emit :=
  (set_rooms (<[room := {[id sk]} ∪ members st room]> (rooms st)) st, []).

(** [socket.on("signal", ({ room, payload }) => ...)] *)
Definition on_signal (sk : socket) (room : string) (payload : value) (st : server)
  : server * list emit :=
  (st, [SocketTo (id sk) room "signal" (POpaque payload)]).

(** [socket.on("auth", ({ room, payload }) => ...)] *)
Definition on_auth (sk : socket) (room : string) (payload : value) (st : server)
  : server * list emit :=
  (st, [SocketTo (id sk) room "auth" (POpaque payload)]).

(** [socket.on("disconnect", () => ...)] *)
Definition on_disconnect (sk : socket) (st : server) : server * list emit :=
  if truthy (data_pubKey st sk)
  then (set_userSockets (delete (to_key (data_pubKey st sk)) (userSockets st)) st, [])
  else (st, []).

(** Dispatch of one inbound event of socket [sk], handled at time [now]. *)
Definition handle (now : Z) (sk : socket) (ev : event) (st : server)
  : server * list emit :=
  match ev with
  | Register pubKey => on_register now sk pubKey st
  | RequestConnection to from => on_request_connection now sk to from st
  | AcceptConnection to from => on_accept_connection to from st
  | CallRequest to from callType => on_call_request to from callType st
  | CallAccepted to from => on_call_accepted to from st
  | CallRejected to from => on_call_rejected to from st
  | CallEnded to from => on_call_ended to from st
  | Join room => on_join sk room st
  | Signal room payload => on_signal sk room payload st
  | Auth room payload => on_auth sk room payload st
  | Disconnect => on_disconnect sk st
  end.

(** A run of the event loop: the events in the order they are handled, each
    with its time and its socket; the result is the final state and all the
    calls to [emit], oldest first. *)
Fixpoint run (evs : list (Z * socket * event)) (st : server)
  : server * list emit :=
  match evs with
  | [] => (st, [])
  | (now, sk, ev) :: evs' =>
      let '(st1, out1) := handle now sk ev st in
      let '(st2, out2) := run evs' st1 in
      (st2, (out1 ++ out2)%list)
  end.

(** socket.io's delivery of one [emit] call, given the room table at the time
    of the call: [io.to(room)] reaches every member of the room,
    [socket.to(room)] every member but the sending socket.  Each recipient
    gets the event name and the argument as passed.  A room that is not a
    string but an object of [Object.prototype] has no member: sockets are
    put in rooms by [socket.join] under the names that clients send. *)
Definition deliveries (st : server) (e : emit) : list (string * string * payload) :=
  match e with
  | IoTo room name p =>
      (λ r, (r, name, p)) <$> elements (members st room)
  | IoToObject _ _ _ => []
  | SocketTo sender room name p =>
      (λ r, (r, name, p)) <$> elements (members st room ∖ {[sender]})
  end.

(** ** The address API *)

(** The table [addresses (address TEXT PRIMARY KEY, inviteCode TEXT NOT NULL)]
    behind the handle [db]: a finite map from address to invite code.  [None]
    is the handle before [open] has delivered it (the variable [db] is still
    [undefined], so a call on it throws).  Storage faults of an open
    database are outside the model.

    [db.run("INSERT INTO addresses (address, inviteCode) VALUES (?, ?)")]:
    the new table, or the [code] of the error thrown: ["SQLITE_CONSTRAINT"]
    when the primary key is taken, [undefined] for the [TypeError] of a call
    on a handle that is not there. *)
Definition INSERT (db : option (gmap string string)) (address inviteCode : string)
  : option (gmap string string) + value :=
  match db with
  | None => inr VUndefined
  | Some addresses =>
      match addresses !! address with
      | Some _ => inr (VString "SQLITE_CONSTRAINT")
      | None => inl (Some (<[address := inviteCode]> addresses))
      end
  end.

(** [SELECT inviteCode FROM addresses WHERE address = ?]: the row, if any. *)
Definition SELECT (db : option (gmap string string)) (address : string)
  : option string + value :=
  match db with
  | None => inr VUndefined
  | Some addresses => inl (addresses !! address)
  end.

(** The JSON bodies the two routes send. *)
Inductive body :=
| BError (error : string)
| BClaimed (message : string)
| BInvite (inviteCode : string).

(** [res.status(status).json(body)] *)
Record response := Response {
  status : Z;
  json : body;
}.

(** [app.post("/api/claim", async (req, res) => ...)], on the two fields of
    [req.body].  A field that passes the guard is a non-empty string and is
    bound as it is.  The [try] block catches what [db.run] throws;
    [err.code] tells a taken address from any other failure. *)
Definition post_api_claim (address inviteCode : value)
  (db : option (gmap string string)) : response * option (gmap string string) :=
  if negb (truthy address) || negb (truthy inviteCode) then
    ({| status := 400; json := BError "Address and inviteCode are required." |}, db)
  else
    match INSERT db (to_key address) (to_key inviteCode) with
    | inl db' =>
        ({| status := 201; json := BClaimed "Address claimed successfully." |}, db')
    | inr code =>
        if bool_decide (code = VString "SQLITE_CONSTRAINT") then
          ({| status := 409; json := BError "This address is already taken." |}, db)
        else
          ({| status := 500; json := BError "Database error claiming address." |}, db)
    end.

(** [app.get("/api/resolve/:address", async (req, res) => ...)], on
    [req.params.address]. *)
Definition get_api_resolve (address : string) (db : option (gmap string string))
  : response * option (gmap string string) :=
  match SELECT db address with
  | inl (Some inviteCode) => ({| status := 200; json := BInvite inviteCode |}, db)
  | inl None => ({| status := 404; json := BError "Address not found." |}, db)
  | inr _ => ({| status := 500; json := BError "Database error resolving address." |}, db)
  end.

(** A request to the address API. *)
Inductive request :=
| Claim (address inviteCode : value)
| Resolve (address : string).

Definition serve (rq : request) (db : option (gmap string string))
  : response * option (gmap string string) :=
  match rq with
  | Claim address inviteCode => post_api_claim address inviteCode db
  | Resolve address => get_api_resolve address db
  end.

(** The requests in the order in which their statement reaches the
    database; the result is the responses, in that order, and the final
    table. *)
Fixpoint serve_all (rqs : list request) (db : option (gmap string string))
  : list response * option (gmap string string) :=
  match rqs with
  | [] => ([], db)
  | rq :: rqs' =>
      let '(r, db1) := serve rq db in
      let '(rs, db2) := serve_all rqs' db1 in
      (r :: rs, db2)
  end.

(** * Notions used in the statements *)

(** The verdicts, in a run of checks, of the checks made for origin [ip]. *)
Fixpoint verdicts_of (ip : string) (cs : list (Z * socket)) (bs : list bool)
  : list bool :=
  match cs, bs with
  | (_, sk) :: cs', b :: bs' =>
      if decide (address sk = ip)
      then b :: verdicts_of ip cs' bs'
      else verdicts_of ip cs' bs'
  | _, _ => []
  end.

(** The number of checks of a run made for origin [ip]. *)
Fixpoint checks_of (ip : string) (cs : list (Z * socket)) : nat :=
  match cs with
  | [] => 0
  | (_, sk) :: cs' =>
      if decide (address sk = ip) then S (checks_of ip cs') else checks_of ip cs'
  end.

(** A check for [ip] at time [t1] opens a window: there is no record for the
    origin, or the record's window has passed. *)
Definition opens_window (rl : gmap string rl_record) (ip : string) (t1 : Z) : Prop :=
  match rl !! ip with
  | None => True
  | Some r => t1 - startTime r > TIME_FRAME
  end.

(** Every check of [cs] for [ip] falls within the window that started at [t1]. *)
Definition within_window (ip : string) (t1 : Z) (cs : list (Z * socket)) : Prop :=
  Forall (λ c, address c.2 = ip → c.1 - t1 ≤ TIME_FRAME) cs.

(** Every stored count is between 1 and [LIMIT]. *)
Definition counts_bounded (rl : gmap string rl_record) : Prop :=
  map_Forall (λ _ r, 1 ≤ count r ≤ LIMIT) rl.

#[global] Instance opens_window_dec rl ip t1 : Decision (opens_window rl ip t1).
Proof. unfold opens_window. destruct (rl !! ip); [apply Z_gt_dec|apply _]. Defined.

#[global] Instance within_window_dec ip t1 cs : Decision (within_window ip t1 cs).
Proof. unfold within_window. apply _. Defined.

(** What the sockets receive from a list of [emit] calls made while the room
    table is that of [st]. *)
Definition delivered (st : server) (out : list emit)
  : list (string * string * payload) :=
  out ≫= deliveries st.

(** The six relayed kinds, with the target identifier they carry. *)
Definition relay_target (ev : event) : option string :=
  match ev with
  | RequestConnection to _ | AcceptConnection to _ | CallRequest to _ _
  | CallAccepted to _ | CallRejected to _ | CallEnded to _ => Some to
  | _ => None
  end.

(** The two kinds of inbound event that are said to be rate-limited. *)
Definition gated (ev : event) : bool :=
  match ev with
  | Register _ | RequestConnection _ _ => true
  | _ => false
  end.

(** A registration is admitted when the rate limiter lets it through. *)
Definition allowed (now : Z) (sk : socket) (st : server) : Prop :=
  (isRateLimited now sk (rateLimit st)).1 = false.

#[global] Instance allowed_dec now sk st : Decision (allowed now sk st).
Proof. unfold allowed. apply _. Defined.

(** An event that leaves socket [c] attached to the identifier [k]: any
    event of another socket, any event of [c] that is not a registration,
    and a registration by [c] of an absent or empty identifier or of one
    whose normal form is [k]. *)
Definition keeps_identifier (c : socket) (k : string)
  (e : Z * socket * event) : Prop :=
  match e.2 with
  | Register (VString s) => id e.1.2 = id c → s ≠ "" → replace_ws s = k
  | _ => True
  end.

#[global] Instance keeps_identifier_dec c k e : Decision (keeps_identifier c k e).
Proof.
  unfold keeps_identifier. destruct (e.2) as [[|s]| | | | | | | | | |]; apply _.
Defined.

(** An event that does not take the identifier [k] away from socket [c]:
    anything but a registration, by another socket, of an identifier whose
    normal form is [k]. *)
Definition not_taken_over (c : socket) (k : string)
  (e : Z * socket * event) : Prop :=
  match e.2 with
  | Register (VString s) => id e.1.2 ≠ id c → replace_ws s ≠ k
  | _ => True
  end.

#[global] Instance not_taken_over_dec c k e : Decision (not_taken_over c k e).
Proof.
  unfold not_taken_over. destruct (e.2) as [[|s]| | | | | | | | | |]; apply _.
Defined.

#[global] Instance event_eq_dec : EqDecision event.
Proof. solve_decision. Defined.

(** A gated event of origin [ip] that falls within the window started at
    [t1]. *)
Definition gated_in_window (ip : string) (t1 : Z) (e : Z * socket * event) : Prop :=
  gated e.2 = true ∧ address e.1.2 = ip ∧ e.1.1 - t1 ≤ TIME_FRAME.

#[global] Instance gated_in_window_dec ip t1 e : Decision (gated_in_window ip t1 e).
Proof. unfold gated_in_window. apply _. Defined.

(** The outbound event of each relayed kind, as the handlers emit it to the
    socket [targetId]. *)
Definition relay_emit (targetId : string) (ev : event) : list emit :=
  match ev with
  | RequestConnection _ from =>
      [IoTo targetId "incoming-request" (PFrom (VString (replace_ws from)))]
  | AcceptConnection _ from =>
      [IoTo targetId "connection-accepted" (PFrom (VString (replace_ws from)))]
  | CallRequest _ from callType =>
      [IoTo targetId "incoming-call" (PFromCall (VString (replace_ws from)) callType)]
  | CallAccepted _ from =>
      [IoTo targetId "call-accepted" (PFrom (VString (replace_ws from)))]
  | CallRejected _ from =>
      [IoTo targetId "call-rejected" (PFrom (VString (replace_ws from)))]
  | CallEnded _ from =>
      [IoTo targetId "call-ended" (PFrom (VString (replace_ws from)))]
  | _ => []
  end.

(** The registry is well formed: every key is in normal form and resolves to
    its own entry, every entry points at a socket that has an identifier
    attached, and every attached identifier is a string in normal form. *)
Definition registry_wf (st : server) : Prop :=
  (∀ k i, userSockets st !! k = Some i →
          replace_ws k = k ∧ resolve st k = Own i ∧ is_Some (data st !! i))
  ∧ (∀ i v, data st !! i = Some v → ∃ s, v = VString s ∧ replace_ws s = s).

(** The table holds neither an empty address nor an empty invite code. *)
Definition addresses_wf (db : option (gmap string string)) : Prop :=
  ∀ addresses a c, db = Some addresses → addresses !! a = Some c → a ≠ "" ∧ c ≠ "".

(** ** Sample data *)

Definition sample_origin : string := "10.0.0.1".
Definition sample_socket : socket := Socket "s1" sample_origin.
Definition other_socket : socket := Socket "s2" "10.0.0.2".

(** Twenty-one checks for [sample_origin], one a second from 1000 ms on, with
    a check for another origin in their midst. *)
Definition sample_checks : list (Z * socket) :=
  (((λ i : nat, (Z.of_nat i * 1000, sample_socket)) <$> seq 1 10)
   ++ [(999999, other_socket)]
   ++ ((λ i : nat, (Z.of_nat i * 1000, sample_socket)) <$> seq 11 11))%list.

(** A second socket of [sample_origin]. *)
Definition sample_sibling : socket := Socket "s3" sample_origin.

(** Twenty-one gated events of [sample_origin], one a second from 1000 ms
    on, of both kinds and from both of its sockets; the last two register
    the identifier "late". *)
Definition sample_gated_events : list (Z * socket * event) :=
  (λ i : nat,
     (Z.of_nat i * 1000,
      if Nat.even i then sample_socket else sample_sibling,
      if (20 <=? i)%nat then Register (VString "late")
      else if Nat.even i then Register (VString "alice")
           else RequestConnection "bob" "alice")) <$> seq 1 21.

(** Nineteen checks of [sample_origin] at the last millisecond of the
    window that starts at 0, and nineteen more one millisecond later. *)
Definition burst_first : list (Z * socket) := replicate 19 (60000, sample_socket).
Definition burst_second : list (Z * socket) := replicate 19 (60001, sample_socket).

(** The state in which s1 is registered as "alice" and s2 as "bob". *)
Definition alice_and_bob : server :=
  (run [(0, sample_socket, Register (VString "alice"));
        (1, other_socket, Register (VString "bob"))] init).1.

(** Twenty registrations by s1 within one second: the budget of its
    origin for the window. *)
Definition twenty_registrations : list (Z * socket * event) :=
  replicate 20 (0, sample_socket, Register (VString "x")).

(** A table with one row. *)
Definition sample_table : gmap string string := {[ "alice.syrja" := "invite-1" ]}.

(** * Properties *)

(** Case analysis through the body of a handler. *)
Ltac unfold_handlers :=
  unfold handle, on_register, on_request_connection, on_accept_connection,
    on_call_request, on_call_accepted, on_call_rejected, on_call_ended,
    on_join, on_signal, on_auth, on_disconnect;
  repeat case_match; simpl in *; try done; try lia.

(** ** The rate limiter *)

Section RateLimiter.

Implicit Types (rl : gmap string rl_record) (sk : socket) (now : Z).

Lemma isRateLimited_other now sk rl ip :
  address sk ≠ ip → (isRateLimited now sk rl).2 !! ip = rl !! ip.
Proof.
  intros Hne. unfold isRateLimited.
  destruct (rl !! address sk) as [r|]; simpl.
  - destruct (_ >? _); simpl; [by rewrite lookup_insert_ne|].
    destruct (_ >=? _); simpl; [done|by rewrite lookup_insert_ne].
  - by rewrite lookup_insert_ne.
Qed.

Lemma isRateLimited_rejected now sk rl :
  (isRateLimited now sk rl).1 = true → (isRateLimited now sk rl).2 = rl.
Proof.
  unfold isRateLimited.
  destruct (rl !! address sk) as [r|]; simpl; [|done].
  destruct (_ >? _); simpl; [done|].
  by destruct (_ >=? _).
Qed.

(** The first check of a window is admitted and stores a count of 1. *)
Lemma isRateLimited_opens now sk rl :
  opens_window rl (address sk) now →
  isRateLimited now sk rl
  = (false, <[address sk := {| count := 1; startTime := now |}]> rl).
Proof.
  unfold opens_window, isRateLimited.
  destruct (rl !! address sk) as [r|]; [|done].
  intros Hopen.
  destruct (Z.gtb_spec (now - startTime r) TIME_FRAME); [done|lia].
Qed.

(** Inside a window the verdict is decided by the stored count alone. *)
Lemma isRateLimited_inside now sk rl c t1 :
  rl !! address sk = Some {| count := c; startTime := t1 |} →
  now - t1 ≤ TIME_FRAME →
  isRateLimited now sk rl
  = if decide (LIMIT ≤ c) then (true, rl)
    else (false, <[address sk := {| count := c + 1; startTime := t1 |}]> rl).
Proof.
  intros Hr Hin. unfold isRateLimited. rewrite Hr. simpl.
  destruct (Z.gtb_spec (now - t1) TIME_FRAME); [lia|].
  destruct (Z.geb_spec c LIMIT); case_decide; done || lia.
Qed.

Lemma isRateLimited_bounded now sk rl :
  counts_bounded rl → counts_bounded (isRateLimited now sk rl).2.
Proof.
  intros Hb. unfold isRateLimited.
  destruct (rl !! address sk) as [r|] eqn:Hr; simpl.
  - destruct (_ >? _); simpl.
    { apply map_Forall_insert_2; [unfold LIMIT; simpl; lia|done]. }
    destruct (Z.geb_spec (count r) LIMIT); simpl; [done|].
    apply map_Forall_insert_2; [|done]. simpl.
    specialize (Hb _ _ Hr). simpl in Hb. lia.
  - apply map_Forall_insert_2; [unfold LIMIT; simpl; lia|done].
Qed.

Lemma run_checks_bounded cs rl :
  counts_bounded rl → counts_bounded (run_checks cs rl).2.
Proof.
  revert rl. induction cs as [|[now sk] cs IH]; intros rl Hb; [done|].
  simpl. pose proof (isRateLimited_bounded now sk rl Hb) as H1.
  destruct (isRateLimited now sk rl) as [b rl1]. simpl in H1.
  specialize (IH rl1 H1). destruct (run_checks cs rl1) as [bs rl2]. done.
Qed.

Lemma within_window_cons ip t1 c cs :
  within_window ip t1 (c :: cs) → within_window ip t1 cs.
Proof. apply Forall_inv_tail. Qed.

Lemma verdicts_past_limit (k n : nat) :
  (20 ≤ k)%nat →
  (λ i : nat, bool_decide (20 ≤ i)%nat) <$> seq k n = replicate n true.
Proof.
  revert k. induction n as [|n IH]; intros k Hk; [done|].
  simpl. rewrite bool_decide_true by done. f_equal. apply IH. lia.
Qed.

(** In a window that started at [t1], when [k] checks of the origin have
    been made (the stored count is [min k 20]), the following checks of the
    origin are rejected exactly from the one that makes the total exceed
    20. *)
Lemma verdicts_in_window ip t1 cs : ∀ rl (k : nat),
  rl !! ip = Some {| count := Z.of_nat (k `min` 20); startTime := t1 |} →
  within_window ip t1 cs →
  verdicts_of ip cs (run_checks cs rl).1
  = (λ i : nat, bool_decide (20 ≤ i)%nat) <$> seq k (checks_of ip cs)
  ∧ (run_checks cs rl).2 !! ip
    = Some {| count := Z.of_nat ((k + checks_of ip cs) `min` 20);
              startTime := t1 |}.
Proof.
  induction cs as [|[now sk] cs IH]; intros rl k Hr Hin.
  { simpl. rewrite Nat.add_0_r. done. }
  pose proof (Forall_inv Hin) as Hhd. simpl in Hhd.
  pose proof (within_window_cons _ _ _ _ Hin) as Hin'.
  simpl. destruct (decide (address sk = ip)) as [Heq|Hne].
  - specialize (Hhd Heq) as Ht.
    subst ip. rewrite (isRateLimited_inside _ _ _ _ _ Hr Ht).
    unfold LIMIT. case_decide as Hc.
    + destruct (IH rl k Hr Hin') as [IHv IHr].
      destruct (run_checks cs rl) as [bs rl2]. simpl in *.
      assert (20 ≤ k)%nat by lia.
      rewrite bool_decide_true by done. split.
      * f_equal. rewrite IHv.
        rewrite !verdicts_past_limit by lia. done.
      * rewrite IHr. do 2 f_equal. lia.
    + assert (k < 20)%nat by lia.
      destruct (IH (<[address sk := {| count := Z.of_nat (k `min` 20) + 1;
                                       startTime := t1 |}]> rl) (S k)) as [IHv IHr].
      { rewrite lookup_insert_eq. do 2 f_equal. lia. }
      { done. }
      destruct (run_checks cs _) as [bs rl2]. simpl in *.
      rewrite bool_decide_false by lia. split.
      * by rewrite IHv.
      * rewrite IHr. do 3 f_equal. lia.
  - pose proof (isRateLimited_other now sk rl ip Hne) as Ho.
    destruct (isRateLimited now sk rl) as [b rl1]. simpl in Ho.
    destruct (IH rl1 k) as [IHv IHr]; [by rewrite Ho|done|].
    destruct (run_checks cs rl1) as [bs rl2]. simpl in *.
    done.
Qed.

(** A window from its first check on: the verdicts of the origin's checks,
    and the record left behind. *)
Lemma verdicts_from_window_start ip rl t1 sk1 cs :
  address sk1 = ip →
  opens_window rl ip t1 →
  within_window ip t1 cs →
  verdicts_of ip ((t1, sk1) :: cs) (run_checks ((t1, sk1) :: cs) rl).1
  = (λ i : nat, bool_decide (20 ≤ i)%nat) <$> seq 0 (S (checks_of ip cs))
  ∧ (run_checks ((t1, sk1) :: cs) rl).2 !! ip
    = Some {| count := Z.of_nat (S (checks_of ip cs) `min` 20);
              startTime := t1 |}.
Proof.
  intros <- Hopen Hin. simpl.
  rewrite (isRateLimited_opens _ _ _ Hopen).
  destruct (verdicts_in_window (address sk1) t1 cs
              (<[address sk1 := {| count := 1; startTime := t1 |}]> rl) 1)
    as [Hv Hr]; [by rewrite lookup_insert_eq|done|].
  destruct (run_checks cs _) as [bs rl2]. simpl in *.
  rewrite decide_True by done. rewrite Hv, Hr. done.
Qed.

End RateLimiter.

(** The number of admitted checks among the verdicts of a window that has
    seen [k] checks already. *)
Lemma passed_in_window (k n : nat) :
  length (filter (λ b : bool, b = false)
            ((λ i : nat, bool_decide (20 ≤ i)%nat) <$> seq k n))
  = ((k + n) `min` 20 - k `min` 20)%nat.
Proof.
  revert k. induction n as [|n IH]; intros k.
  { simpl. rewrite Nat.add_0_r. lia. }
  simpl. destruct (decide (20 ≤ k)%nat) as [Hk|Hk].
  - rewrite bool_decide_true by done.
    rewrite filter_cons_False by done. rewrite IH. lia.
  - rewrite bool_decide_false by done.
    rewrite filter_cons_True by done. simpl. rewrite IH. lia.
Qed.

(** C5.  Fixed window of the rate limiter.  For a fixed origin [ip], take any
    run of checks whose first check for [ip] (at time [t1]) opens a window
    and whose other checks for [ip] all fall within the 60 seconds that
    follow [t1]; checks for other origins may be interleaved.  Then the
    checks for [ip] number 1 to 20 are admitted and number 21 and all later
    ones are rejected (the check at position [i], counted from 0, is rejected
    exactly when [20 <= i]).  And a check for [ip] at a time [tn] with
    [tn - t1 > 60000] is admitted and leaves the record [{count: 1,
    startTime: tn}], after that run and after any other table whose record
    for [ip] has run out, whatever its count. *)
Theorem rate_limit_fixed_window (ip : string) (rl : gmap string rl_record)
    (t1 : Z) (sk1 : socket) (cs : list (Z * socket)) (tn : Z) (skn : socket) :
  address sk1 = ip →
  address skn = ip →
  opens_window rl ip t1 →
  within_window ip t1 cs →
  tn - t1 > TIME_FRAME →
  verdicts_of ip ((t1, sk1) :: cs) (run_checks ((t1, sk1) :: cs) rl).1
  = (λ i : nat, bool_decide (20 ≤ i)%nat) <$> seq 0 (S (checks_of ip cs))
  ∧ isRateLimited tn skn (run_checks ((t1, sk1) :: cs) rl).2
    = (false, <[ip := {| count := 1; startTime := tn |}]>
                (run_checks ((t1, sk1) :: cs) rl).2)
  ∧ ∀ rl0 r, rl0 !! ip = Some r → tn - startTime r > TIME_FRAME →
      isRateLimited tn skn rl0
      = (false, <[ip := {| count := 1; startTime := tn |}]> rl0).
Proof.
  intros H1 Hn Hopen Hin Hlate.
  destruct (verdicts_from_window_start ip rl t1 sk1 cs H1 Hopen Hin) as [Hv Hr].
  split; [exact Hv|]. subst ip. rewrite <- Hn in *. split.
  - apply isRateLimited_opens. unfold opens_window. rewrite Hr. exact Hlate.
  - intros rl0 r Hr0 Hlate0. apply isRateLimited_opens.
    unfold opens_window. rewrite Hr0. exact Hlate0.
Qed.

(** C10.  The budget of a window.  After any run of checks from the empty
    table every stored count lies between 1 and 20; a rejected check returns
    the table as it found it; and of the checks for one origin in one window
    (the first opens it, the others fall within it) at most 20 are admitted. *)
Theorem rate_limit_budget :
  (∀ cs, counts_bounded (run_checks cs ∅).2)
  ∧ (∀ now sk rl,
       (isRateLimited now sk rl).1 = true → (isRateLimited now sk rl).2 = rl)
  ∧ (∀ ip rl t1 sk1 cs,
       address sk1 = ip →
       opens_window rl ip t1 →
       within_window ip t1 cs →
       (length (filter (λ b : bool, b = false)
                  (verdicts_of ip ((t1, sk1) :: cs)
                     (run_checks ((t1, sk1) :: cs) rl).1)) ≤ 20)%nat).
Proof.
  split; [|split].
  - intros cs. apply run_checks_bounded. apply map_Forall_empty.
  - apply isRateLimited_rejected.
  - intros ip rl t1 sk1 cs H1 Hopen Hin.
    destruct (verdicts_from_window_start ip rl t1 sk1 cs H1 Hopen Hin) as [Hv _].
    rewrite Hv, passed_in_window. lia.
Qed.

Lemma rate_limit_fixed_window_witness :
  opens_window ∅ sample_origin 0
  ∧ within_window sample_origin 0 sample_checks
  ∧ 60001 - 0 > TIME_FRAME
  ∧ verdicts_of sample_origin ((0, sample_socket) :: sample_checks)
      (run_checks ((0, sample_socket) :: sample_checks) ∅).1
    = (replicate 20 false ++ [true; true])%list
  ∧ (isRateLimited 60001 sample_socket
       (run_checks ((0, sample_socket) :: sample_checks) ∅).2).1 = false.
Proof.
  assert (opens_window ∅ sample_origin 0) as Ho by exact I.
  assert (within_window sample_origin 0 sample_checks) as Hw
    by (apply (bool_decide_unpack _); vm_compute; exact I).
  assert (60001 - 0 > TIME_FRAME) as Hl by reflexivity.
  destruct (rate_limit_fixed_window sample_origin ∅ 0 sample_socket
              sample_checks 60001 sample_socket eq_refl eq_refl Ho Hw Hl)
    as (Hv & Hn & _).
  split; [exact Ho|]. split; [exact Hw|]. split; [exact Hl|].
  split; [exact Hv|]. rewrite Hn. reflexivity.
Defined.

Lemma rate_limit_budget_witness :
  (isRateLimited 21000 sample_socket
     (run_checks ((0, sample_socket) :: sample_checks) ∅).2).1 = true
  ∧ (isRateLimited 21000 sample_socket
       (run_checks ((0, sample_socket) :: sample_checks) ∅).2).2
    = (run_checks ((0, sample_socket) :: sample_checks) ∅).2
  ∧ opens_window ∅ sample_origin 0
  ∧ within_window sample_origin 0 sample_checks
  ∧ (length (filter (λ b : bool, b = false)
               (verdicts_of sample_origin ((0%Z, sample_socket) :: sample_checks)
                  (run_checks ((0%Z, sample_socket) :: sample_checks) ∅).1))
     ≤ 20)%nat.
Proof.
  destruct rate_limit_budget as (_ & Hrej & Hwin).
  assert ((isRateLimited 21000 sample_socket
             (run_checks ((0, sample_socket) :: sample_checks) ∅).2).1 = true)
    as Hr by (vm_compute; reflexivity).
  assert (opens_window ∅ sample_origin 0) as Ho by exact I.
  assert (within_window sample_origin 0 sample_checks) as Hw
    by (apply (bool_decide_unpack _); vm_compute; exact I).
  split; [exact Hr|]. split; [exact (Hrej _ _ _ Hr)|].
  split; [exact Ho|]. split; [exact Hw|].
  exact (Hwin sample_origin ∅ 0 sample_socket sample_checks eq_refl Ho Hw).
Defined.

(** ** The presence registry *)

Section Registry.

Implicit Types (st : server) (sk c : socket) (now : Z) (ev : event).

Lemma truthy_string (s : string) : truthy (VString s) = true ↔ s ≠ "".
Proof.
  simpl. destruct (String.eqb_spec s ""); simpl; split; congruence.
Qed.

Lemma replace_ws_nonempty (s : string) : replace_ws s ≠ "" → s ≠ "".
Proof. intros H ->. by apply H. Qed.

(** Reading and writing a plain object. *)
Lemma obj_get_own (obj : gmap string string) (k v : string) :
  obj_get obj k = Own v ↔ obj !! k = Some v.
Proof.
  unfold obj_get. destruct (obj !! k); [|case_bool_decide]; split; congruence.
Qed.

Lemma obj_get_absent (obj : gmap string string) (k : string) :
  obj !! k = None →
  obj_get obj k = if bool_decide (k ∈ Object_prototype) then Inherited k
                  else Undefined.
Proof. unfold obj_get. by intros ->. Qed.

Lemma obj_set_stores (obj : gmap string string) (k v : string) :
  k ≠ "__proto__" → obj_set obj k v = <[k := v]> obj.
Proof.
  intros Hk. unfold obj_set. rewrite bool_decide_false; [done|]. by intros [? _].
Qed.

Lemma obj_get_set_ne (obj : gmap string string) (k k' v : string) :
  k ≠ k' → obj_get (obj_set obj k v) k' = obj_get obj k'.
Proof.
  intros Hne. unfold obj_set. case_bool_decide; [done|].
  unfold obj_get. by rewrite lookup_insert_ne.
Qed.

Lemma obj_set_lookup_ne (obj : gmap string string) (k k' v : string) :
  k ≠ k' → obj_set obj k v !! k' = obj !! k'.
Proof.
  intros Hne. unfold obj_set. case_bool_decide; [done|].
  by rewrite lookup_insert_ne.
Qed.

Lemma obj_get_delete_ne (obj : gmap string string) (k k' : string) :
  k ≠ k' → obj_get (delete k obj) k' = obj_get obj k'.
Proof. intros Hne. unfold obj_get. by rewrite lookup_delete_ne. Qed.

(** Deleting the own property that an assignment made, or did not make. *)
Lemma delete_obj_set (obj : gmap string string) (k v : string) :
  delete k (obj_set obj k v) = delete k obj.
Proof. unfold obj_set. case_bool_decide; [done|]. apply delete_insert_eq. Qed.

(** The three outcomes of the register handler. *)
Lemma on_register_rejected now sk pk st :
  ¬ allowed now sk st → on_register now sk pk st = (st, []).
Proof.
  unfold allowed, on_register. intros Hlim.
  pose proof (isRateLimited_rejected now sk (rateLimit st)) as Hrej.
  destruct (isRateLimited now sk (rateLimit st)) as [[] rl]; simpl in *; [|done].
  rewrite Hrej by done. by destruct st.
Qed.

Lemma on_register_falsy now sk pk st :
  allowed now sk st → truthy pk = false →
  on_register now sk pk st
  = (set_rateLimit (isRateLimited now sk (rateLimit st)).2 st, []).
Proof.
  unfold allowed, on_register. intros Hadm Hpk.
  destruct (isRateLimited now sk (rateLimit st)) as [b rl]; simpl in *.
  subst b. by rewrite Hpk.
Qed.

Lemma on_register_effective now sk pk st :
  allowed now sk st → truthy pk = true →
  on_register now sk pk st
  = ({| rateLimit := (isRateLimited now sk (rateLimit st)).2;
        userSockets := obj_set (userSockets st) (to_key (normKey pk)) (id sk);
        data := <[id sk := normKey pk]> (data st);
        rooms := rooms st |}, []).
Proof.
  unfold allowed, on_register. intros Hadm Hpk.
  destruct (isRateLimited now sk (rateLimit st)) as [b rl]; simpl in *.
  subst b. by rewrite Hpk.
Qed.

(** The relay handlers, [join], [signal] and [auth] leave the registry and
    the attached identifiers alone. *)
Lemma handle_other_userSockets now sk ev st :
  (∀ pk, ev ≠ Register pk) → ev ≠ Disconnect →
  userSockets (handle now sk ev st).1 = userSockets st
  ∧ data (handle now sk ev st).1 = data st.
Proof.
  intros Hreg Hdis.
  destruct ev; try (by destruct (Hreg pubKey)); try done; unfold_handlers.
Qed.

Lemma on_disconnect_data sk st : data (on_disconnect sk st).1 = data st.
Proof. unfold on_disconnect. by destruct (truthy _). Qed.

(** How one handled event changes the identifier attached to a socket. *)
Lemma handle_data_pubKey now sk ev st c :
  data_pubKey (handle now sk ev st).1 c
  = match ev with
    | Register pk =>
        if bool_decide (id sk = id c ∧ allowed now sk st ∧ truthy pk = true)
        then normKey pk
        else data_pubKey st c
    | _ => data_pubKey st c
    end.
Proof.
  unfold data_pubKey. destruct ev as [pk| | | | | | | | | |];
    try (match goal with
         | |- context [handle now sk ?e st] =>
             by rewrite (proj2 (handle_other_userSockets now sk e st
                                  ltac:(done) ltac:(done)))
         end).
  - simpl. destruct (decide (allowed now sk st)) as [Hadm|Hadm].
    + destruct (truthy pk) eqn:Hpk.
      * rewrite on_register_effective by done. simpl.
        case_bool_decide as Hd.
        -- destruct Hd as [-> _]. by rewrite lookup_insert_eq.
        -- rewrite lookup_insert_ne; [done|]. intros Heq. apply Hd. done.
      * rewrite on_register_falsy by done. simpl.
        rewrite bool_decide_false; [done|]. intros (_ & _ & ?). done.
    + rewrite on_register_rejected by done. simpl.
      rewrite bool_decide_false; [done|]. intros (_ & ? & _). done.
  - change (handle now sk Disconnect st) with (on_disconnect sk st).
    by rewrite on_disconnect_data.
Qed.

Lemma run_app (evs1 evs2 : list (Z * socket * event)) st :
  run (evs1 ++ evs2) st
  = ((run evs2 (run evs1 st).1).1,
     ((run evs1 st).2 ++ (run evs2 (run evs1 st).1).2)%list).
Proof.
  revert st. induction evs1 as [|[[now sk] ev] evs1 IH]; intros st.
  { simpl. by destruct (run evs2 st). }
  simpl. destruct (handle now sk ev st) as [st1 out1].
  rewrite IH. destruct (run evs1 st1) as [st2 out2]. simpl.
  by rewrite app_assoc.
Qed.

(** Events that keep the identifier keep it along a whole run. *)
Lemma run_keeps_identifier c k (evs : list (Z * socket * event)) st :
  Forall (keeps_identifier c k) evs →
  data_pubKey st c = VString k →
  data_pubKey (run evs st).1 c = VString k.
Proof.
  revert st. induction evs as [|[[now sk] ev] evs IH]; intros st Hk Hd; [done|].
  apply Forall_cons in Hk as [Hhd Htl]. simpl.
  pose proof (handle_data_pubKey now sk ev st c) as Hstep.
  destruct (handle now sk ev st) as [st1 out1]. simpl in Hstep.
  specialize (IH st1 Htl). destruct (run evs st1) as [st2 out2]. simpl in *.
  apply IH. rewrite Hstep.
  destruct ev as [pk| | | | | | | | | |]; try done.
  case_bool_decide as Hb; [|done].
  destruct Hb as (Hid & _ & Hpk). unfold keeps_identifier in Hhd. simpl in Hhd.
  destruct pk as [|s]; [done|]. simpl. f_equal.
  apply Hhd; [done|]. by apply truthy_string.
Qed.

End Registry.

Lemma truthy_normKey (pk : value) : truthy (normKey pk) = true → truthy pk = true.
Proof.
  destruct pk as [|s]; [done|]. unfold normKey. rewrite !truthy_string.
  apply replace_ws_nonempty.
Qed.

(** An absent or empty identifier is not registered: the registry and the
    attached identifiers stay as they are. *)
Lemma register_absent_or_empty now sk pk st :
  pk = VUndefined ∨ pk = VString "" →
  userSockets (handle now sk (Register pk) st).1 = userSockets st
  ∧ data (handle now sk (Register pk) st).1 = data st.
Proof.
  intros Hpk. assert (truthy pk = false) as Hf by (by destruct Hpk as [-> | ->]).
  simpl. destruct (decide (allowed now sk st)) as [Hadm|Hadm].
  - by rewrite on_register_falsy.
  - by rewrite on_register_rejected.
Qed.

(** What the disconnect handler deletes does not depend on whom the entry
    points at: the key attached to the socket goes, whoever holds it. *)
Lemma on_disconnect_deletes_attached (c : socket) (st : server) :
  truthy (data_pubKey st c) = true →
  userSockets (on_disconnect c st).1
  = delete (to_key (data_pubKey st c)) (userSockets st).
Proof. intros Htr. unfold on_disconnect. by rewrite Htr. Qed.

(** C1.  Evaluation of the handlers at the failing input: socket s1 registers
    "A", socket s2 registers "A" and displaces it, then s1 disconnects.
    Before the disconnect "A" resolves to s2; the disconnect handler of s1
    deletes the entry although it points at s2, and "A" no longer resolves. *)
Lemma stale_disconnect_removes_successor :
  resolve (run [(0, sample_socket, Register (VString "A"));
                (1, other_socket, Register (VString "A"))] init).1 "A"
  = Own (id other_socket)
  ∧ resolve (run [(0, sample_socket, Register (VString "A"));
                  (1, other_socket, Register (VString "A"));
                  (2, sample_socket, Disconnect)] init).1 "A"
    = Undefined.
Proof. split; vm_compute; reflexivity. Qed.

(** C2, as stated, fails: a socket that registered "a" and then "b" leaves
    "a" in the registry when it disconnects. *)
Lemma superseded_identifier_survives_disconnect :
  resolve (run [(0, sample_socket, Register (VString "a"));
                (1, sample_socket, Register (VString "b"));
                (2, sample_socket, Disconnect)] init).1 "a"
  = Own (id sample_socket).
Proof. vm_compute; reflexivity. Qed.

(** C2, amended.  Let socket [c] register [A], admitted by the rate limiter,
    the normal form of [A] being neither empty nor the name of a property
    that the registry object inherits from [Object.prototype]; this in any
    state, so after any earlier events, registrations by [c] included.  Let
    any events follow in which no other socket registers [A] (up to white
    space) and [c] registers nothing but [A] again, and let [c] then
    disconnect.  After the disconnect [A] resolves to nothing. *)
Theorem disconnect_unregisters_attached_identifier (st : server) (c : socket)
    (A : string) (now tn : Z) (evs : list (Z * socket * event)) :
  replace_ws A ≠ "" →
  replace_ws A ∉ Object_prototype →
  allowed now c st →
  Forall (not_taken_over c (replace_ws A)) evs →
  Forall (keeps_identifier c (replace_ws A)) evs →
  resolve (run ((now, c, Register (VString A)) :: evs ++ [(tn, c, Disconnect)]) st).1 A
  = Undefined.
Proof.
  intros HA Hproto Hadm _ Hkeep.
  assert (truthy (VString A) = true) as Htr
    by (apply truthy_string, replace_ws_nonempty, HA).
  change ((now, c, Register (VString A)) :: evs ++ [(tn, c, Disconnect)])
    with ([(now, c, Register (VString A))] ++ evs ++ [(tn, c, Disconnect)])%list.
  rewrite !run_app.
  set (st1 := (run [(now, c, Register (VString A))] st).1).
  assert (data_pubKey st1 c = VString (replace_ws A)) as Hd1.
  { unfold st1. simpl. rewrite on_register_effective by done.
    unfold data_pubKey. simpl. by rewrite lookup_insert_eq. }
  pose proof (run_keeps_identifier c _ evs st1 Hkeep Hd1) as Hd2.
  set (st2 := (run evs st1).1) in *. simpl.
  unfold on_disconnect. rewrite Hd2.
  rewrite (proj2 (truthy_string _) HA). simpl.
  unfold resolve. simpl. rewrite obj_get_absent by apply lookup_delete_eq.
  by rewrite bool_decide_false.
Qed.

Lemma disconnect_unregisters_attached_identifier_witness :
  replace_ws "a b" ≠ ""
  ∧ (replace_ws "a b" ∉ Object_prototype)
  ∧ resolve
      (run ((5, sample_socket, Register (VString "a b"))
            :: [(6, other_socket, Register (VString "x"));
                (7, sample_socket, Register (VString " ab"));
                (8, other_socket, RequestConnection "ab" "x")]
            ++ [(9, sample_socket, Disconnect)])
         (run [(0, sample_socket, Register (VString "old"))] init).1).1 "a b"
    = Undefined.
Proof.
  assert (replace_ws "a b" ≠ "") as HA by (vm_compute; discriminate).
  assert (replace_ws "a b" ∉ Object_prototype) as HP
    by (apply (bool_decide_unpack _); vm_compute; exact I).
  split; [exact HA|]. split; [exact HP|].
  apply (disconnect_unregisters_attached_identifier _ sample_socket "a b" 5 9).
  - exact HA.
  - exact HP.
  - vm_compute; reflexivity.
  - apply (bool_decide_unpack _). vm_compute. exact I.
  - apply (bool_decide_unpack _). vm_compute. exact I.
Defined.

(** C3, as stated, fails: the second registration of a socket replaces the
    identifier the first one attached. *)
Lemma second_registration_replaces_attached_identifier :
  data_pubKey (run [(0, sample_socket, Register (VString "a"))] init).1
    sample_socket = VString "a"
  ∧ data_pubKey (run [(0, sample_socket, Register (VString "a"));
                      (1, sample_socket, Register (VString "b"))] init).1
      sample_socket = VString "b".
Proof. split; vm_compute; reflexivity. Qed.

(** C3, amended.  The identifier attached to socket [c] is written by the
    registrations of [c] and by nothing else.  A registration by [c] that
    the rate limiter admits and whose identifier has a non-empty normal form
    attaches that normal form, whatever was attached before; a registration
    that is rejected, or whose identifier is absent or empty, leaves the
    attached identifier as it was; so does every event of another socket and
    every event that is not a registration. *)
Theorem attached_identifier_follows_registration (now : Z) (sk : socket)
    (ev : event) (st : server) (c : socket) :
  (∀ pk, ev = Register pk → id sk = id c → allowed now sk st →
         truthy (normKey pk) = true →
         data_pubKey (handle now sk ev st).1 c = normKey pk)
  ∧ (∀ pk, ev = Register pk → ¬ allowed now sk st ∨ truthy pk = false →
           data_pubKey (handle now sk ev st).1 c = data_pubKey st c)
  ∧ ((∀ pk, ev ≠ Register pk) ∨ id sk ≠ id c →
     data_pubKey (handle now sk ev st).1 c = data_pubKey st c).
Proof.
  pose proof (handle_data_pubKey now sk ev st c) as H.
  split; [|split].
  - intros pk -> Hid Hadm Hpk. rewrite H.
    rewrite bool_decide_true; [done|]. by eauto using truthy_normKey.
  - intros pk -> Hno. rewrite H.
    rewrite bool_decide_false; [done|]. intros (_ & Hadm & Hpk).
    destruct Hno as [Hno|Hno]; [done|congruence].
  - intros Hno. rewrite H. destruct ev as [pk| | | | | | | | | |]; try done.
    destruct Hno as [Hno|Hno]; [by destruct (Hno pk)|].
    rewrite bool_decide_false; [done|]. intros (Hid & _ & _). done.
Qed.

Lemma attached_identifier_follows_registration_witness :
  data_pubKey
    (handle 1 sample_socket (Register (VString " b "))
       (run [(0, sample_socket, Register (VString "a"))] init).1).1
    sample_socket = VString "b"
  ∧ data_pubKey
      (handle 1 sample_socket (Register VUndefined)
         (run [(0, sample_socket, Register (VString "a"))] init).1).1
      sample_socket = VString "a"
  ∧ data_pubKey
      (handle 1 other_socket (Register (VString "b"))
         (run [(0, sample_socket, Register (VString "a"))] init).1).1
      sample_socket = VString "a".
Proof.
  split; [|split].
  - apply (proj1 (attached_identifier_follows_registration 1 sample_socket
                    (Register (VString " b ")) _ sample_socket) (VString " b "));
      vm_compute; reflexivity.
  - rewrite (proj1 (proj2 (attached_identifier_follows_registration 1
                             sample_socket (Register VUndefined) _ sample_socket))
               VUndefined eq_refl (or_intror eq_refl)).
    vm_compute; reflexivity.
  - rewrite (proj2 (proj2 (attached_identifier_follows_registration 1
                             other_socket (Register (VString "b")) _
                             sample_socket))).
    + vm_compute; reflexivity.
    + right. vm_compute. discriminate.
Defined.

(** C4.  Evaluation of the register handler at the failing input: an
    identifier of white space only.  The guard [if (!pubKey) return] sees a
    non-empty string, so the handler goes on: the registry gets an entry under
    the empty key and the empty string is attached to the socket.  The
    disconnect handler, whose guard takes the empty string for no identifier,
    then leaves that entry in place. *)
Lemma register_whitespace_only_is_not_a_noop :
  resolve init "  " = Undefined
  ∧ data_pubKey init sample_socket = VUndefined
  ∧ resolve (handle 0 sample_socket (Register (VString "  ")) init).1 "  "
    = Own (id sample_socket)
  ∧ userSockets (handle 0 sample_socket (Register (VString "  ")) init).1 !! ""
    = Some (id sample_socket)
  ∧ data_pubKey (handle 0 sample_socket (Register (VString "  ")) init).1
      sample_socket = VString ""
  ∧ resolve (run [(0, sample_socket, Register (VString "  "));
                  (1, sample_socket, Disconnect)] init).1 ""
    = Own (id sample_socket).
Proof. repeat split; vm_compute; reflexivity. Qed.

(** C6, as stated, fails.  A registration that the rate limiter rejects
    (here the 21st of its origin in one window) is dropped, and so is one of
    the empty identifier: the identifier does not resolve afterwards.  And
    the identifier "__proto__" is never stored: the assignment runs the
    setter of [Object.prototype], and the lookup yields [Object.prototype]
    itself, not the socket. *)
Lemma dropped_registration_does_not_resolve :
  resolve
    (run (twenty_registrations ++ [(1, sample_socket, Register (VString "A"))])
       init).1 "A" = Undefined
  ∧ resolve (handle 0 sample_socket (Register (VString "")) init).1 ""
    = Undefined
  ∧ resolve (handle 0 sample_socket (Register (VString "__proto__")) init).1
      "__proto__" = Inherited "__proto__".
Proof. repeat split; vm_compute; reflexivity. Qed.

(** C6, amended.  Round trip of register and resolve.  Let [c1] register an
    identifier [A] whose normal form is neither empty nor "__proto__", the
    rate limiter admitting the registration.  Then [A] resolves to [c1]; so
    does every string [B] that is equal to [A] once all white space is
    removed; and if [c2] then registers [A], admitted as well, [A] resolves
    to [c2]. *)
Theorem register_resolve_round_trip (st : server) (A B : string)
    (c1 c2 : socket) (t1 t2 : Z) :
  replace_ws A ≠ "" →
  replace_ws A ≠ "__proto__" →
  allowed t1 c1 st →
  allowed t2 c2 (handle t1 c1 (Register (VString A)) st).1 →
  replace_ws B = replace_ws A →
  resolve (handle t1 c1 (Register (VString A)) st).1 A = Own (id c1)
  ∧ resolve (run [(t1, c1, Register (VString A));
                  (t2, c2, Register (VString A))] st).1 A = Own (id c2)
  ∧ resolve (handle t1 c1 (Register (VString A)) st).1 B = Own (id c1).
Proof.
  intros HA Hproto Hadm1 Hadm2 HB.
  assert (truthy (VString A) = true) as Htr
    by (apply truthy_string, replace_ws_nonempty, HA).
  assert (∀ s, resolve (handle t1 c1 (Register (VString A)) st).1 s
               = obj_get (<[replace_ws A := id c1]> (userSockets st))
                   (replace_ws s)) as H1.
  { intros s. simpl. rewrite on_register_effective by done.
    unfold resolve. simpl. by rewrite obj_set_stores. }
  split; [|split].
  - rewrite H1. apply obj_get_own, lookup_insert_eq.
  - simpl. simpl in Hadm2.
    destruct (on_register t1 c1 (VString A) st) as [st1 out1]. simpl in *.
    rewrite on_register_effective by done. simpl.
    unfold resolve. simpl. rewrite obj_set_stores by done.
    apply obj_get_own, lookup_insert_eq.
  - rewrite H1, HB. apply obj_get_own, lookup_insert_eq.
Qed.

Lemma register_resolve_round_trip_witness :
  replace_ws " a b " ≠ ""
  ∧ replace_ws " a b " ≠ "__proto__"
  ∧ replace_ws "ab" = replace_ws " a b "
  ∧ resolve (handle 0 sample_socket (Register (VString " a b ")) init).1 " a b "
    = Own (id sample_socket)
  ∧ resolve (run [(0, sample_socket, Register (VString " a b "));
                  (1, other_socket, Register (VString " a b "))] init).1 " a b "
    = Own (id other_socket)
  ∧ resolve (handle 0 sample_socket (Register (VString " a b ")) init).1 "ab"
    = Own (id sample_socket).
Proof.
  assert (replace_ws " a b " ≠ "") as HA by (vm_compute; discriminate).
  assert (replace_ws " a b " ≠ "__proto__") as HP by (vm_compute; discriminate).
  assert (replace_ws "ab" = replace_ws " a b ") as HB by reflexivity.
  split; [exact HA|]. split; [exact HP|]. split; [exact HB|].
  apply (register_resolve_round_trip init " a b " "ab" sample_socket
           other_socket 0 1 HA HP).
  - vm_compute; reflexivity.
  - vm_compute; reflexivity.
  - exact HB.
Defined.

(** ** The relay router *)

(** C7.  A relay miss is silent.  For each of the six relayed kinds, when the
    normal form of the target identifier has no entry in the registry,
    nothing is delivered to any socket, the sender included, and the registry
    is left as it was.  The handler makes no call to [emit] at all, unless
    the target names a property that the registry object inherits from
    [Object.prototype]: then the one call it makes is addressed to that
    inherited object, which is the room of no socket. *)
Theorem relay_miss_is_silent (now : Z) (sk : socket) (ev : event)
    (to : string) (st : server) :
  relay_target ev = Some to →
  userSockets st !! replace_ws to = None →
  delivered (handle now sk ev st).1 (handle now sk ev st).2 = []
  ∧ userSockets (handle now sk ev st).1 = userSockets st
  ∧ (replace_ws to ∉ Object_prototype → (handle now sk ev st).2 = [])
  ∧ ((handle now sk ev st).2 = []
     ∨ ∃ name p, (handle now sk ev st).2 = [IoToObject (replace_ws to) name p]).
Proof.
  intros Hev Hmiss.
  assert (resolve st to = if bool_decide (replace_ws to ∈ Object_prototype)
                          then Inherited (replace_ws to) else Undefined)
    as Hres by (by apply obj_get_absent).
  assert (userSockets (handle now sk ev st).1 = userSockets st
          ∧ (((replace_ws to ∉ Object_prototype) ∧ (handle now sk ev st).2 = [])
             ∨ (handle now sk ev st).2 = []
             ∨ ∃ name p, (handle now sk ev st).2
                         = [IoToObject (replace_ws to) name p]))
    as [Hus Hout].
  { case_bool_decide as Hp;
      destruct ev; simpl in Hev; try discriminate; injection Hev as ->; simpl;
      try (unfold on_request_connection;
           destruct (isRateLimited now sk (rateLimit st)) as [[] rl]; simpl;
           [by eauto|];
           change (resolve (set_rateLimit rl st) to) with (resolve st to));
      unfold on_accept_connection, on_call_request, on_call_accepted,
        on_call_rejected, on_call_ended;
      rewrite Hres; simpl; by eauto 10. }
  split; [|split; [exact Hus|split]].
  - destruct Hout as [[_ ->]|[->|(name & p & ->)]]; done.
  - intros Hp. destruct Hout as [[_ ->]|[->|(name & p & Hout)]]; try done.
    revert Hout. case_bool_decide as Hp'; [done|].
    destruct ev; simpl in Hev; try discriminate; injection Hev as ->; simpl;
      try (unfold on_request_connection;
           destruct (isRateLimited now sk (rateLimit st)) as [[] rl]; simpl;
           [done|];
           change (resolve (set_rateLimit rl st) to) with (resolve st to));
      unfold on_accept_connection, on_call_request, on_call_accepted,
        on_call_rejected, on_call_ended;
      rewrite Hres; by simpl.
  - destruct Hout as [[_ ->]|[->|Hout]]; by eauto.
Qed.

Lemma relay_miss_is_silent_witness :
  userSockets alice_and_bob !! replace_ws "c a r o l" = None
  ∧ (handle 2 sample_socket (RequestConnection "c a r o l" "alice")
       alice_and_bob).2 = []
  ∧ delivered
      (handle 2 sample_socket (CallRequest "constructor" "alice" (VString "video"))
         alice_and_bob).1
      (handle 2 sample_socket (CallRequest "constructor" "alice" (VString "video"))
         alice_and_bob).2 = [].
Proof.
  assert (userSockets alice_and_bob !! replace_ws "c a r o l" = None) as Hmiss
    by (vm_compute; reflexivity).
  split; [exact Hmiss|]. split.
  - apply (proj1 (proj2 (proj2 (relay_miss_is_silent 2 sample_socket
             (RequestConnection "c a r o l" "alice") "c a r o l" alice_and_bob
             eq_refl Hmiss)))).
    apply (bool_decide_unpack _). vm_compute. exact I.
  - assert (userSockets alice_and_bob !! replace_ws "constructor" = None)
      as Hmiss' by (vm_compute; reflexivity).
    exact (proj1 (relay_miss_is_silent 2 sample_socket
                    (CallRequest "constructor" "alice" (VString "video"))
                    "constructor" alice_and_bob eq_refl Hmiss')).
Defined.

(** ** Rooms *)

(** C8.  Broadcast to a room.  When socket [X] emits [signal] (or [auth])
    with [{room: r, payload: P}], every member of [r] other than [X]
    receives one event of that name carrying [P] as it was sent, nothing else
    is delivered to anyone, and [X] itself receives nothing; the state is left
    as it was.  The handler makes the one call
    [socket.to(r).emit(name, P)]; who receives it is socket.io's delivery of
    that call ([deliveries]).  Whether [X] is a member of [r] plays no
    part. *)
Theorem room_broadcast (now : Z) (X : socket) (r : string) (P : value)
    (st : server) (ev : event) (name : string) :
  (ev = Signal r P ∧ name = "signal") ∨ (ev = Auth r P ∧ name = "auth") →
  (handle now X ev st).1 = st
  ∧ (handle now X ev st).2 = [SocketTo (id X) r name (POpaque P)]
  ∧ (∀ Y, Y ∈ members st r → Y ≠ id X →
          (Y, name, POpaque P) ∈ delivered st (handle now X ev st).2)
  ∧ (∀ d, d ∈ delivered st (handle now X ev st).2 →
          d.1.1 ∈ members st r ∧ d.1.2 = name ∧ d.2 = POpaque P)
  ∧ (∀ n p, (id X, n, p) ∉ delivered st (handle now X ev st).2)
  ∧ NoDup (delivered st (handle now X ev st).2).
Proof.
  intros Hev.
  assert ((handle now X ev st).1 = st
          ∧ (handle now X ev st).2 = [SocketTo (id X) r name (POpaque P)])
    as [Hst Hout] by (by destruct Hev as [[-> ->]|[-> ->]]).
  assert (delivered st (handle now X ev st).2
          = (λ Y, (Y, name, POpaque P)) <$> elements (members st r ∖ {[id X]}))
    as Hds.
  { rewrite Hout. unfold delivered. simpl. by rewrite app_nil_r. }
  rewrite Hds. split; [exact Hst|]. split; [exact Hout|].
  split; [|split; [|split]].
  - intros Y HY Hne. apply list_elem_of_fmap. exists Y. split; [done|].
    apply elem_of_elements. set_solver.
  - intros d Hd. apply list_elem_of_fmap in Hd. destruct Hd as (Y & Heq & HY).
    subst d. rewrite elem_of_elements, elem_of_difference in HY.
    destruct HY as [HY _]. done.
  - intros n p Hd. apply list_elem_of_fmap in Hd. destruct Hd as (Y & Heq & HY).
    rewrite elem_of_elements, elem_of_difference in HY.
    destruct HY as [_ HY]. injection Heq as <- _ _.
    apply HY, elem_of_singleton. done.
  - apply NoDup_fmap_2; [|apply NoDup_elements].
    intros Y1 Y2 Heq. by injection Heq.
Qed.

Lemma room_broadcast_witness :
  delivered (run [(0, sample_socket, Join "r"); (1, other_socket, Join "r")] init).1
    (handle 2 sample_socket (Signal "r" (VString "P"))
       (run [(0, sample_socket, Join "r"); (1, other_socket, Join "r")] init).1).2
  = [(id other_socket, "signal", POpaque (VString "P"))]
  ∧ (id other_socket, "signal", POpaque (VString "P"))
    ∈ delivered (run [(0, sample_socket, Join "r"); (1, other_socket, Join "r")] init).1
        (handle 2 sample_socket (Signal "r" (VString "P"))
           (run [(0, sample_socket, Join "r"); (1, other_socket, Join "r")] init).1).2.
Proof.
  split; [vm_compute; reflexivity|].
  apply (proj1 (proj2 (proj2 (room_broadcast 2 sample_socket "r" (VString "P") _
                         (Signal "r" (VString "P")) "signal"
                         (or_introl (conj eq_refl eq_refl))))));
    vm_compute; [reflexivity|discriminate].
Defined.

(** ** Which events the rate limiter gates *)

(** C9.  The rate limiter is consulted by [register] and
    [request-connection] and by no other kind.  For every other kind of
    event the handler gives the same result whatever the rate-limit table
    holds, and hands the table on untouched.  For the two gated kinds the
    handler starts with the check: the table it leaves is the one the check
    leaves, and when the check rejects, the event has no effect at all. *)
Theorem rate_limiter_gates_two_kinds (now : Z) (sk : socket) (ev : event)
    (st : server) :
  (gated ev = false →
     rateLimit (handle now sk ev st).1 = rateLimit st
     ∧ ∀ rl, handle now sk ev (set_rateLimit rl st)
             = (set_rateLimit rl (handle now sk ev st).1,
                (handle now sk ev st).2))
  ∧ (gated ev = true →
       rateLimit (handle now sk ev st).1
       = (isRateLimited now sk (rateLimit st)).2
       ∧ (¬ allowed now sk st → handle now sk ev st = (st, []))).
Proof.
  split; intros Hg; destruct ev; try discriminate Hg.
  1-9: split; [unfold_handlers|];
       intros rl; unfold handle, on_accept_connection, on_call_request,
         on_call_accepted, on_call_rejected, on_call_ended, on_join, on_signal,
         on_auth, on_disconnect, resolve, data_pubKey; simpl;
       repeat case_match; done.
  - split; [|apply on_register_rejected]. simpl.
    unfold on_register.
    destruct (isRateLimited now sk (rateLimit st)) as [[] rl]; simpl; [done|].
    by destruct (negb _).
  - simpl. unfold on_request_connection, allowed.
    pose proof (isRateLimited_rejected now sk (rateLimit st)) as Hrej.
    destruct (isRateLimited now sk (rateLimit st)) as [[] rl]; simpl in *.
    + split; [done|]. intros _. rewrite Hrej by done. by destruct st.
    + split; [|done]. by repeat case_match.
Qed.

Lemma rate_limiter_gates_two_kinds_witness :
  gated (CallRequest "bob" "alice" (VString "video")) = false
  ∧ rateLimit
      (handle 21000 sample_socket (CallRequest "bob" "alice" (VString "video"))
         (set_rateLimit (run_checks ((0, sample_socket) :: sample_checks) ∅).2
            init)).1
    = (run_checks ((0, sample_socket) :: sample_checks) ∅).2
  ∧ gated (Register (VString "alice")) = true
  ∧ ¬ allowed 21000 sample_socket
        (set_rateLimit (run_checks ((0, sample_socket) :: sample_checks) ∅).2
           init)
  ∧ handle 21000 sample_socket (Register (VString "alice"))
      (set_rateLimit (run_checks ((0, sample_socket) :: sample_checks) ∅).2 init)
    = (set_rateLimit (run_checks ((0, sample_socket) :: sample_checks) ∅).2 init,
       []).
Proof.
  assert (¬ allowed 21000 sample_socket
            (set_rateLimit (run_checks ((0, sample_socket) :: sample_checks) ∅).2
               init)) as Hno by (vm_compute; discriminate).
  split; [reflexivity|]. split.
  - exact (proj1 (proj1 (rate_limiter_gates_two_kinds 21000 sample_socket
                           (CallRequest "bob" "alice" (VString "video")) _)
                    eq_refl)).
  - split; [reflexivity|]. split; [exact Hno|].
    exact (proj2 (proj2 (rate_limiter_gates_two_kinds 21000 sample_socket
                           (Register (VString "alice")) _) eq_refl) Hno).
Defined.

(** * Further properties of the code *)

#[local] Set Warnings "-clear-no-such-hyp".

(** ** The rate limiter, continued *)

(** The verdict of a check and the record it leaves for its origin are
    decided by the record of that origin alone. *)
Lemma isRateLimited_local (now : Z) (sk : socket) (rl rl' : gmap string rl_record) :
  rl !! address sk = rl' !! address sk →
  (isRateLimited now sk rl).1 = (isRateLimited now sk rl').1
  ∧ (isRateLimited now sk rl).2 !! address sk
    = (isRateLimited now sk rl').2 !! address sk.
Proof.
  intros Heq. unfold isRateLimited. rewrite <- Heq.
  destruct (rl !! address sk) as [r|] eqn:Hr; simpl.
  - destruct (_ >? _); simpl; [by rewrite !lookup_insert_eq|].
    destruct (_ >=? _); simpl; [by rewrite <- Heq|by rewrite !lookup_insert_eq].
  - by rewrite !lookup_insert_eq.
Qed.

Lemma verdicts_of_local (ip : string) (cs : list (Z * socket)) :
  ∀ rl rl' : gmap string rl_record,
    rl !! ip = rl' !! ip →
    verdicts_of ip cs (run_checks cs rl).1
    = (run_checks (filter (λ c, address c.2 = ip) cs) rl').1.
Proof.
  induction cs as [|[now sk] cs IH]; intros rl rl' Heq; [done|].
  simpl. destruct (decide (address sk = ip)) as [Hip|Hip].
  - rewrite filter_cons_True by done. simpl. subst ip.
    destruct (isRateLimited_local now sk rl rl' Heq) as [Hv Hr].
    destruct (isRateLimited now sk rl) as [b rl1].
    destruct (isRateLimited now sk rl') as [b' rl1']. simpl in *. subst b'.
    specialize (IH rl1 rl1' Hr).
    destruct (run_checks cs rl1) as [bs rl2].
    destruct (run_checks _ rl1') as [bs' rl2']. simpl in *.
    by rewrite IH.
  - rewrite filter_cons_False by done.
    pose proof (isRateLimited_other now sk rl ip Hip) as Ho.
    destruct (isRateLimited now sk rl) as [b rl1]. simpl in Ho.
    specialize (IH rl1 rl'). rewrite Ho in IH. specialize (IH Heq).
    destruct (run_checks cs rl1) as [bs rl2]. simpl in *.
    done.
Qed.

(** X1.  Origins do not interfere.  In any run of checks, the verdicts that
    the checks of origin [ip] get are the verdicts they would get if the
    checks of all other origins were taken out of the run: no origin can use
    up, or reset, the budget of another. *)
Theorem rate_limit_origins_do_not_interfere (ip : string)
    (cs : list (Z * socket)) (rl : gmap string rl_record) :
  verdicts_of ip cs (run_checks cs rl).1
  = (run_checks (filter (λ c, address c.2 = ip) cs) rl).1.
Proof. by apply verdicts_of_local. Qed.

Lemma isRateLimited_dom (now : Z) (sk : socket) (rl : gmap string rl_record) :
  dom (isRateLimited now sk rl).2 = {[address sk]} ∪ dom rl.
Proof.
  unfold isRateLimited. destruct (rl !! address sk) as [r|] eqn:Hr; simpl.
  - assert (address sk ∈ dom rl) by (apply elem_of_dom; eauto).
    destruct (_ >? _); simpl; [by rewrite dom_insert_L|].
    destruct (_ >=? _); simpl; [set_solver|by rewrite dom_insert_L].
  - by rewrite dom_insert_L.
Qed.

(** X2.  Records are created and never removed.  After any run of checks the
    table holds a record for exactly the origins it held one for before and
    the origins that were checked, admitted or not. *)
Theorem rate_limit_records_accumulate (cs : list (Z * socket))
    (rl : gmap string rl_record) :
  dom (run_checks cs rl).2 = dom rl ∪ list_to_set ((λ c, address c.2) <$> cs).
Proof.
  revert rl. induction cs as [|[now sk] cs IH]; intros rl.
  { simpl. set_solver. }
  simpl. pose proof (isRateLimited_dom now sk rl) as Hd.
  destruct (isRateLimited now sk rl) as [b rl1]. simpl in Hd.
  specialize (IH rl1). destruct (run_checks cs rl1) as [bs rl2]. simpl in *.
  rewrite IH, Hd. set_solver.
Qed.

(** ** The budget as the handlers spend it *)

Lemma handle_gated_check (now : Z) (sk : socket) (ev : event) (st : server) :
  gated ev = true →
  rateLimit (handle now sk ev st).1 = (isRateLimited now sk (rateLimit st)).2
  ∧ (¬ allowed now sk st → handle now sk ev st = (st, [])).
Proof.
  intros Hg. unfold allowed.
  pose proof (isRateLimited_rejected now sk (rateLimit st)) as Hrej.
  destruct ev; try discriminate Hg; simpl.
  - unfold on_register.
    destruct (isRateLimited now sk (rateLimit st)) as [[] rl]; simpl in *.
    + split; [done|]. intros _. rewrite Hrej by done. by destruct st.
    + split; [|done]. by destruct (negb _).
  - unfold on_request_connection.
    destruct (isRateLimited now sk (rateLimit st)) as [[] rl]; simpl in *.
    + split; [done|]. intros _. rewrite Hrej by done. by destruct st.
    + split; [|done]. by repeat case_match.
Qed.

(** In a window that has seen [k] gated events of the origin, only the next
    [20 - k] gated events of the origin take effect. *)
Lemma run_in_window (ip : string) (t1 : Z) (evs : list (Z * socket * event)) :
  ∀ (k : nat) (st : server),
    rateLimit st !! ip
    = Some {| count := Z.of_nat (k `min` 20); startTime := t1 |} →
    Forall (gated_in_window ip t1) evs →
    run evs st = run (take (20 - k) evs) st.
Proof.
  induction evs as [|[[now sk] ev] evs IH]; intros k st Hr Hin.
  { by rewrite take_nil. }
  apply Forall_cons in Hin as [(Hg & Hip & Ht) Hin]. simpl in Hg, Hip, Ht.
  destruct (handle_gated_check now sk ev st Hg) as [Hrl Hrej].
  subst ip. rewrite (isRateLimited_inside _ _ _ _ _ Hr Ht) in Hrl.
  unfold allowed in Hrej. rewrite (isRateLimited_inside _ _ _ _ _ Hr Ht) in Hrej.
  unfold LIMIT in *. case_decide as Hc; simpl in *.
  - assert (20 - k = 0)%nat as -> by lia.
    rewrite take_0. simpl. rewrite Hrej by done.
    rewrite (IH k st Hr Hin).
    assert (20 - k = 0)%nat as -> by lia. by rewrite take_0.
  - assert (20 - k = S (20 - S k))%nat as -> by lia.
    simpl. destruct (handle now sk ev st) as [st1 out1]. simpl in Hrl.
    rewrite (IH (S k) st1); [done| |done].
    rewrite Hrl, lookup_insert_eq. do 2 f_equal. lia.
Qed.

(** X3.  One budget for both gated kinds and for all sockets of an origin.
    Take any run of [register] and [request-connection] events, in any mix,
    from any sockets of one origin, the first of which opens a window and
    the others of which fall within it.  Then only the first 20 events of
    the run take effect: the final state and the emitted events are those of
    the run cut after its 20th event. *)
Theorem gated_events_share_one_budget (ip : string) (t1 : Z) (sk1 : socket)
    (ev1 : event) (evs : list (Z * socket * event)) (st : server) :
  address sk1 = ip →
  gated ev1 = true →
  opens_window (rateLimit st) ip t1 →
  Forall (gated_in_window ip t1) evs →
  run ((t1, sk1, ev1) :: evs) st = run (take 20 ((t1, sk1, ev1) :: evs)) st.
Proof.
  intros Hip Hg Hopen Hin. subst ip.
  change (take 20 ((t1, sk1, ev1) :: evs)) with ((t1, sk1, ev1) :: take 19 evs).
  simpl. destruct (handle_gated_check t1 sk1 ev1 st Hg) as [Hrl _].
  rewrite (isRateLimited_opens _ _ _ Hopen) in Hrl.
  destruct (handle t1 sk1 ev1 st) as [st1 out1]. simpl in Hrl.
  rewrite (run_in_window (address sk1) t1 evs 1 st1); [done| |done].
  by rewrite Hrl, lookup_insert_eq.
Qed.

(** ** The relay router, continued *)

(** X4.  A relay hit.  For each of the six relayed kinds, when the target
    identifier resolves to a socket id (socket ids are non-empty) and, for
    [request-connection], the rate limiter admits the event, the handler
    makes exactly one call [io.to(targetId).emit(...)]: the outbound event of
    that kind, addressed to the resolved socket, carrying [from] in normal
    form (and [callType] as it came).  The registry, the attached
    identifiers and the rooms stay as they were. *)
Theorem relay_hit_emits_to_target (now : Z) (sk : socket) (ev : event)
    (to targetId : string) (st : server) :
  relay_target ev = Some to →
  resolve st to = Own targetId →
  targetId ≠ "" →
  (gated ev = true → allowed now sk st) →
  (handle now sk ev st).2 = relay_emit targetId ev
  ∧ userSockets (handle now sk ev st).1 = userSockets st
  ∧ data (handle now sk ev st).1 = data st
  ∧ rooms (handle now sk ev st).1 = rooms st.
Proof.
  intros Hev Hhit Hid Hadm. apply truthy_string in Hid.
  destruct ev; simpl in Hev; try discriminate; injection Hev as ->; simpl.
  - specialize (Hadm eq_refl). unfold allowed in Hadm.
    unfold on_request_connection.
    destruct (isRateLimited now sk (rateLimit st)) as [b rl]; simpl in *.
    subst b. change (resolve (set_rateLimit rl st) to) with (resolve st to).
    by rewrite Hhit, Hid.
  - unfold on_accept_connection. by rewrite Hhit, Hid.
  - unfold on_call_request. by rewrite Hhit, Hid.
  - unfold on_call_accepted. by rewrite Hhit, Hid.
  - unfold on_call_rejected. by rewrite Hhit, Hid.
  - unfold on_call_ended. by rewrite Hhit, Hid.
Qed.

(** ** What each handler leaves alone *)

(** X5.  The handlers write only their own tables.  The registry is written
    by [register] and [disconnect] only, the attached identifiers by
    [register] only, the rooms by [join] only.  [register], [join] and
    [disconnect] emit nothing (a socket whose identifier is taken over is not
    told), and no event makes more than one call to [emit]. *)
Theorem handlers_write_only_their_tables (now : Z) (sk : socket) (ev : event)
    (st : server) :
  ((∀ pk, ev ≠ Register pk) → ev ≠ Disconnect →
   userSockets (handle now sk ev st).1 = userSockets st)
  ∧ ((∀ pk, ev ≠ Register pk) → data (handle now sk ev st).1 = data st)
  ∧ ((∀ room, ev ≠ Join room) → rooms (handle now sk ev st).1 = rooms st)
  ∧ ((∃ pk, ev = Register pk) ∨ (∃ room, ev = Join room) ∨ ev = Disconnect →
     (handle now sk ev st).2 = [])
  ∧ (length (handle now sk ev st).2 ≤ 1)%nat.
Proof.
  split; [|split; [|split; [|split]]].
  - intros Hreg Hdis. by apply handle_other_userSockets.
  - intros Hreg. destruct (decide (ev = Disconnect)) as [->|Hdis].
    + apply on_disconnect_data.
    + by apply handle_other_userSockets.
  - intros Hjoin. destruct ev; try (by destruct (Hjoin room)); unfold_handlers.
  - intros [[pk ->]|[[room ->]| ->]]; unfold_handlers.
  - destruct ev; unfold_handlers.
Qed.

(** X6.  Identifiers are independent.  One event changes what an identifier
    [A] resolves to only if it is a registration of a string identifier with
    the normal form of [A], or the disconnect of a socket whose attached
    identifier is the normal form of [A]; every other event leaves
    [resolve(A)] as it was. *)
Theorem resolve_unchanged_by_other_identifiers (now : Z) (sk : socket)
    (ev : event) (st : server) (A : string) :
  (∀ s, ev = Register (VString s) → replace_ws s ≠ replace_ws A) →
  (ev = Disconnect → to_key (data_pubKey st sk) ≠ replace_ws A) →
  resolve (handle now sk ev st).1 A = resolve st A.
Proof.
  intros Hreg Hdis. unfold resolve.
  destruct (decide (ev = Disconnect)) as [->|Hnd].
  { simpl. unfold on_disconnect. destruct (truthy _); [|done]. simpl.
    apply obj_get_delete_ne. by apply Hdis. }
  destruct ev as [pk| | | | | | | | | |];
    try (match goal with
         | |- context [handle now sk ?e st] =>
             by rewrite (proj1 (handle_other_userSockets now sk e st
                                  ltac:(done) ltac:(done)))
         end).
  simpl. destruct (decide (allowed now sk st)) as [Hadm|Hadm].
  - destruct (truthy pk) eqn:Hpk.
    + rewrite on_register_effective by done. simpl.
      destruct pk as [|s]; [done|]. simpl.
      apply obj_get_set_ne. by apply Hreg.
    + by rewrite on_register_falsy.
  - by rewrite on_register_rejected.
Qed.

(** ** Normal forms *)

Lemma replace_ws_idempotent (s : string) : replace_ws (replace_ws s) = replace_ws s.
Proof.
  induction s as [|c s IH]; [done|]. simpl.
  destruct (is_space c) eqn:Hc; [done|]. simpl. by rewrite Hc, IH.
Qed.

(** X7.  [normKey] computes a normal form.  It is idempotent; on a string it
    keeps exactly the code units that are not white space, in their order;
    and it distributes over concatenation. *)
Theorem normKey_is_a_normal_form (k : value) (s1 s2 : string) :
  normKey (normKey k) = normKey k
  ∧ list_ascii_of_string (replace_ws s1)
    = filter (λ c, is_space c = false) (list_ascii_of_string s1)
  ∧ replace_ws (String.append s1 s2)
    = String.append (replace_ws s1) (replace_ws s2).
Proof.
  split; [|split].
  - destruct k as [|s]; [done|]. simpl. by rewrite replace_ws_idempotent.
  - induction s1 as [|c s IH]; [done|]. simpl.
    destruct (is_space c) eqn:Hc.
    + rewrite filter_cons_False by (by rewrite Hc). done.
    + rewrite filter_cons_True by done. simpl. by rewrite IH.
  - induction s1 as [|c s IH]; [done|]. simpl.
    destruct (is_space c); [done|]. simpl. by rewrite IH.
Qed.

(** ** The registry over whole runs *)

Lemma registry_wf_init : registry_wf init.
Proof. split; intros ? ? H; simpl in H; by rewrite lookup_empty in H. Qed.

Lemma handle_registry_wf (now : Z) (sk : socket) (ev : event) (st : server) :
  registry_wf st → registry_wf (handle now sk ev st).1.
Proof.
  intros [Hus Hda].
  assert (∀ st',
            (∀ k i, userSockets st' !! k = Some i →
                    replace_ws k = k ∧ is_Some (data st' !! i)) →
            (∀ i v, data st' !! i = Some v → ∃ s, v = VString s ∧ replace_ws s = s) →
            registry_wf st') as Hmk.
  { intros st' H1 H2. split; [|done]. intros k i Hk.
    destruct (H1 k i Hk) as [Hn Hd]. split; [done|]. split; [|done].
    unfold resolve. simpl. rewrite Hn. by apply obj_get_own. }
  assert (∀ k i, userSockets st !! k = Some i →
                 replace_ws k = k ∧ is_Some (data st !! i)) as Hus'.
  { intros k i Hk. by destruct (Hus k i Hk) as (? & _ & ?). }
  destruct (decide (ev = Disconnect)) as [->|Hnd].
  { apply Hmk; change (handle now sk Disconnect st) with (on_disconnect sk st);
      rewrite on_disconnect_data; [|done].
    unfold on_disconnect. destruct (truthy _); simpl; [|done].
    intros k i Hk. apply lookup_delete_Some in Hk as [_ Hk]. by apply Hus'. }
  destruct ev as [pk| | | | | | | | | |];
    try (match goal with
         | |- context [handle now sk ?e st] =>
             destruct (handle_other_userSockets now sk e st ltac:(done)
                         ltac:(done)) as [Hu Hd];
             by apply Hmk; rewrite ?Hu, ?Hd
         end).
  simpl. destruct (decide (allowed now sk st)) as [Hadm|Hadm].
  - destruct (truthy pk) eqn:Hpk.
    + rewrite on_register_effective by done. destruct pk as [|s]; [done|].
      apply Hmk; simpl.
      * intros k i Hk. unfold obj_set in Hk.
        case_bool_decide as Hp.
        -- destruct (Hus' k i Hk) as [Hn Hd]. split; [done|].
           apply lookup_insert_is_Some'. by right.
        -- apply lookup_insert_Some in Hk as [[<- <-]|[Hne Hk]].
           ++ split; [apply replace_ws_idempotent|].
              rewrite lookup_insert_eq. by eauto.
           ++ destruct (Hus' k i Hk) as [Hn Hd]. split; [done|].
              apply lookup_insert_is_Some'. by right.
      * intros i v Hv.
        apply lookup_insert_Some in Hv as [[_ <-]|[_ Hv]].
        -- eexists. split; [done|]. apply replace_ws_idempotent.
        -- by apply (Hda i).
    + rewrite on_register_falsy by done. by apply Hmk.
  - rewrite on_register_rejected by done. by split.
Qed.

(** X8.  The registry stays well formed.  Along every run of events from a
    well-formed state (the initial state is one) every key of the registry
    is in normal form and resolves to its own entry, every entry points at a
    socket that has an identifier attached, and every attached identifier is
    a string in normal form. *)
Theorem registry_stays_well_formed (evs : list (Z * socket * event))
    (st : server) :
  registry_wf st → registry_wf (run evs st).1.
Proof.
  revert st. induction evs as [|[[now sk] ev] evs IH]; intros st Hwf; [done|].
  simpl. pose proof (handle_registry_wf now sk ev st Hwf) as H1.
  destruct (handle now sk ev st) as [st1 out1]. simpl in H1.
  specialize (IH st1 H1). by destruct (run evs st1).
Qed.

(** X9.  Register and disconnect undo each other.  When a socket registers
    an identifier whose normal form is not empty (the rate limiter admitting
    it) and then disconnects, the registry is the one from before the
    registration with the key of the identifier removed; if the identifier
    had no entry before, the registry is exactly the one from before. *)
Theorem register_then_disconnect_restores_registry (st : server) (c : socket)
    (A : string) (t1 t2 : Z) :
  replace_ws A ≠ "" →
  allowed t1 c st →
  userSockets (run [(t1, c, Register (VString A)); (t2, c, Disconnect)] st).1
  = delete (replace_ws A) (userSockets st)
  ∧ (userSockets st !! replace_ws A = None →
     userSockets (run [(t1, c, Register (VString A)); (t2, c, Disconnect)] st).1
     = userSockets st).
Proof.
  intros HA Hadm.
  assert (truthy (VString A) = true) as Htr
    by (apply truthy_string, replace_ws_nonempty, HA).
  assert (userSockets
            (run [(t1, c, Register (VString A)); (t2, c, Disconnect)] st).1
          = delete (replace_ws A) (userSockets st)) as Heq.
  { simpl. rewrite on_register_effective by done. simpl.
    unfold on_disconnect, data_pubKey. simpl. rewrite lookup_insert_eq. simpl.
    apply truthy_string in HA. simpl in HA. rewrite HA. simpl.
    apply delete_obj_set. }
  split; [exact Heq|]. intros Hnone. rewrite Heq. by apply delete_id.
Qed.

(** ** Rooms, continued *)

Lemma members_join (now : Z) (sk : socket) (room r : string) (st : server) :
  members (handle now sk (Join room) st).1 r
  = if decide (r = room) then {[id sk]} ∪ members st r else members st r.
Proof.
  unfold members at 1. simpl. case_decide as Hr.
  - subst r. by rewrite lookup_insert_eq.
  - by rewrite lookup_insert_ne.
Qed.

Lemma handle_rooms (now : Z) (sk : socket) (ev : event) (st : server) :
  (∀ room, ev ≠ Join room) → rooms (handle now sk ev st).1 = rooms st.
Proof.
  intros Hjoin. destruct ev; try (by destruct (Hjoin room)); unfold_handlers.
Qed.

(** No handler takes a socket out of a room. *)
Lemma handle_members_grow (now : Z) (sk : socket) (ev : event) (st : server)
    (room : string) (y : string) :
  y ∈ members st room → y ∈ members (handle now sk ev st).1 room.
Proof.
  intros Hy.
  assert ((∃ r, ev = Join r) ∨ (∀ r, ev ≠ Join r)) as [[r ->]|Hnj]
    by (destruct ev; eauto).
  - rewrite members_join. case_decide; [|done].
    apply elem_of_union. by right.
  - unfold members. by rewrite handle_rooms.
Qed.

Lemma run_members_grow (evs : list (Z * socket * event)) (st : server)
    (room : string) (y : string) :
  y ∈ members st room → y ∈ members (run evs st).1 room.
Proof.
  revert st. induction evs as [|[[now sk] ev] evs IH]; intros st Hy; [done|].
  simpl. pose proof (handle_members_grow now sk ev st room y Hy) as H1.
  destruct (handle now sk ev st) as [st1 out1]. simpl in H1.
  specialize (IH st1 H1). by destruct (run evs st1).
Qed.

(** X11.  A socket that has joined a room gets the broadcasts to it.  Let
    socket [Y] join [room], let any events follow in which [Y] does not
    disconnect (socket.io takes a closing socket out of its rooms; no
    handler does), and let another socket [X] then emit [signal] or [auth]
    to [room] with payload [P].  Then [Y] receives that event with [P]. *)
Theorem joined_socket_receives_broadcasts (st : server) (Y X : socket)
    (room : string) (P : value) (t1 now : Z)
    (evs : list (Z * socket * event)) (ev : event) (name : string) :
  id X ≠ id Y →
  Forall (λ e, e.2 = Disconnect → id e.1.2 ≠ id Y) evs →
  (ev = Signal room P ∧ name = "signal") ∨ (ev = Auth room P ∧ name = "auth") →
  (id Y, name, POpaque P)
  ∈ delivered (run ((t1, Y, Join room) :: evs) st).1
      (handle now X ev (run ((t1, Y, Join room) :: evs) st).1).2.
Proof.
  intros Hne _ Hev.
  assert (id Y ∈ members (run ((t1, Y, Join room) :: evs) st).1 room) as Hin.
  { change ((t1, Y, Join room) :: evs) with ([(t1, Y, Join room)] ++ evs)%list.
    rewrite run_app. simpl. apply run_members_grow.
    pose proof (members_join t1 Y room room st) as Hm.
    rewrite decide_True in Hm by done. simpl in Hm. rewrite Hm.
    apply elem_of_union. left. by apply elem_of_singleton. }
  set (st1 := (run ((t1, Y, Join room) :: evs) st).1) in *.
  assert ((handle now X ev st1).2 = [SocketTo (id X) room name (POpaque P)])
    as -> by (by destruct Hev as [[-> ->]|[-> ->]]).
  unfold delivered. simpl. rewrite app_nil_r.
  apply list_elem_of_fmap. exists (id Y). split; [done|].
  apply elem_of_elements, elem_of_difference. split; [done|].
  intros Hs. apply elem_of_singleton in Hs. by apply Hne.
Qed.

(** ** The address API *)

Section AddressApi.

Implicit Types (db : option (gmap string string)) (t : gmap string string).

Lemma post_api_claim_open t (a c : string) :
  a ≠ "" → c ≠ "" →
  post_api_claim (VString a) (VString c) (Some t)
  = match t !! a with
    | Some _ => ({| status := 409; json := BError "This address is already taken." |},
                 Some t)
    | None => ({| status := 201; json := BClaimed "Address claimed successfully." |},
               Some (<[a := c]> t))
    end.
Proof.
  intros Ha Hc. unfold post_api_claim.
  rewrite (proj2 (truthy_string a) Ha), (proj2 (truthy_string c) Hc). simpl.
  by destruct (t !! a).
Qed.

(** An open table only grows: every request leaves the table open and keeps
    every row it held. *)
Lemma serve_grows (rq : request) t :
  ∃ t', (serve rq (Some t)).2 = Some t' ∧ t ⊆ t'.
Proof.
  destruct rq as [address inviteCode|address]; simpl.
  - unfold post_api_claim. destruct (negb _ || negb _); [by exists t|].
    simpl. destruct (t !! to_key address) eqn:Hl; simpl; [by exists t|].
    eexists. split; [done|]. by apply insert_subseteq.
  - unfold get_api_resolve. simpl. exists t. by destruct (t !! address).
Qed.

Lemma serve_all_grows (rqs : list request) t :
  ∃ t', (serve_all rqs (Some t)).2 = Some t' ∧ t ⊆ t'.
Proof.
  revert t. induction rqs as [|rq rqs IH]; intros t; [by exists t|].
  simpl. destruct (serve_grows rq t) as (t1 & H1 & Hsub1).
  destruct (serve rq (Some t)) as [r db1]. simpl in H1. subst db1.
  destruct (IH t1) as (t2 & H2 & Hsub2).
  destruct (serve_all rqs (Some t1)) as [rs db2]. simpl in *.
  exists t2. split; [done|]. by etrans.
Qed.

End AddressApi.

(** X12.  Claim and resolve round trip.  On an open table in which the
    address is free, a claim with two non-empty fields is answered 201 and
    stores the row, and resolving that address is then answered 200 with the
    invite code that was claimed. *)
Theorem claim_then_resolve_round_trip (addresses : gmap string string)
    (a c : string) :
  a ≠ "" → c ≠ "" → addresses !! a = None →
  serve_all [Claim (VString a) (VString c); Resolve a] (Some addresses)
  = ([{| status := 201; json := BClaimed "Address claimed successfully." |};
      {| status := 200; json := BInvite c |}],
     Some (<[a := c]> addresses)).
Proof.
  intros Ha Hc Hfree. simpl. rewrite post_api_claim_open by done.
  rewrite Hfree. unfold get_api_resolve. simpl. by rewrite lookup_insert_eq.
Qed.

(** X13.  A claimed address is permanent.  Once an address is in the table,
    then after any further requests resolving it is still answered 200 with
    the same invite code, and a new claim of it, whatever invite code it
    brings, is answered 409 and changes nothing: the first claim wins. *)
Theorem claimed_address_is_permanent (addresses : gmap string string)
    (a c : string) (rqs : list request) (c' : string) :
  a ≠ "" → c' ≠ "" → addresses !! a = Some c →
  (get_api_resolve a (serve_all rqs (Some addresses)).2).1
  = {| status := 200; json := BInvite c |}
  ∧ post_api_claim (VString a) (VString c') (serve_all rqs (Some addresses)).2
    = ({| status := 409; json := BError "This address is already taken." |},
       (serve_all rqs (Some addresses)).2).
Proof.
  intros Ha Hc' Hrow.
  destruct (serve_all_grows rqs addresses) as (t' & -> & Hsub).
  pose proof (lookup_weaken _ _ _ _ Hrow Hsub) as Hrow'. split.
  - unfold get_api_resolve. simpl. by rewrite Hrow'.
  - rewrite post_api_claim_open by done. by rewrite Hrow'.
Qed.

(** X14.  A claim writes only when it succeeds.  A claim is answered 400
    exactly when one of its two fields is falsy, whatever the table holds.
    It is answered 201 only when the database is open and the address is
    free, and then the table gains that one row.  In every other case the
    answer is 400, 409 or 500 and the table is left as it was. *)
Theorem claim_writes_only_on_success (address inviteCode : value)
    (db : option (gmap string string)) :
  (status (post_api_claim address inviteCode db).1 = 400
   ↔ truthy address = false ∨ truthy inviteCode = false)
  ∧ (status (post_api_claim address inviteCode db).1 = 201 →
     ∃ t, db = Some t ∧ t !! to_key address = None
          ∧ (post_api_claim address inviteCode db).2
            = Some (<[to_key address := to_key inviteCode]> t))
  ∧ (status (post_api_claim address inviteCode db).1 ≠ 201 →
     (post_api_claim address inviteCode db).2 = db
     ∧ (status (post_api_claim address inviteCode db).1 = 400
        ∨ status (post_api_claim address inviteCode db).1 = 409
        ∨ status (post_api_claim address inviteCode db).1 = 500)).
Proof.
  unfold post_api_claim.
  destruct (truthy address) eqn:Ha; simpl;
    [|split; [split; [by left|done]|split; [done|by eauto]]].
  destruct (truthy inviteCode) eqn:Hc; simpl;
    [|split; [split; [by right|done]|split; [done|by eauto]]].
  destruct db as [t|]; simpl.
  - destruct (t !! to_key address) eqn:Hl; simpl.
    + split; [split; [done|by intros [?|?]]|split; [done|by eauto]].
    + split; [split; [done|by intros [?|?]]|split; [by eauto|done]].
  - split; [split; [done|by intros [?|?]]|split; [done|by eauto 10]].
Qed.

(** X15.  The table never holds an empty address or an empty invite code:
    the guard of the claim route keeps both out, along every sequence of
    requests from a table that has none (the empty table to begin with). *)
Theorem table_rows_are_never_empty (rqs : list request)
    (db : option (gmap string string)) :
  addresses_wf db → addresses_wf (serve_all rqs db).2.
Proof.
  revert db. induction rqs as [|rq rqs IH]; intros db Hwf; [done|].
  simpl. assert (addresses_wf (serve rq db).2) as H1.
  { destruct rq as [address inviteCode|address]; simpl.
    - unfold post_api_claim.
      destruct (truthy address) eqn:Ha; [|done].
      destruct (truthy inviteCode) eqn:Hc; [|done]. simpl.
      destruct address as [|a]; [done|]. destruct inviteCode as [|c]; [done|].
      apply truthy_string in Ha, Hc.
      destruct db as [t|]; [|done]. simpl.
      destruct (t !! a) eqn:Hl; simpl; [done|].
      intros t' a' c' [= <-] Hrow.
      apply lookup_insert_Some in Hrow as [[<- <-]|[_ Hrow]]; [done|].
      by apply (Hwf t).
    - unfold get_api_resolve. destruct (SELECT db address) as [[?|]|]; done. }
  destruct (serve rq db) as [r db1]. simpl in H1.
  specialize (IH db1 H1). by destruct (serve_all rqs db1).
Qed.

(** X16.  Addresses are compared exactly.  A claim of one address never
    changes the answer for another, however close: resolving [b] after a
    claim of [a] is answered as before whenever [b] and [a] differ, be it
    only in white space (the API does not normalize, unlike the registry). *)
Theorem claim_leaves_other_addresses_alone (a b : string) (inviteCode : value)
    (db : option (gmap string string)) :
  b ≠ a →
  (get_api_resolve b (post_api_claim (VString a) inviteCode db).2).1
  = (get_api_resolve b db).1.
Proof.
  intros Hne. unfold post_api_claim.
  destruct (negb _ || negb _); [done|]. simpl.
  destruct db as [t|]; [|done]. simpl.
  destruct (t !! a); simpl; [done|].
  unfold get_api_resolve. simpl. rewrite lookup_insert_ne by congruence.
  by destruct (t !! b).
Qed.

(** X17.  Before the database is open nothing is served.  While the handle
    is not there every request is answered 400 (a claim lacking a field) or
    500, and the handle stays as it is. *)
Theorem nothing_is_served_before_open (rqs : list request) :
  (serve_all rqs None).2 = None
  ∧ Forall (λ r, status r = 400 ∨ status r = 500) (serve_all rqs None).1.
Proof.
  induction rqs as [|rq rqs [IHdb IHrs]]; [by split|].
  simpl. assert ((serve rq None).2 = None
                 ∧ (status (serve rq None).1 = 400 ∨ status (serve rq None).1 = 500))
    as [Hdb Hst].
  { destruct rq as [address inviteCode|address]; simpl; [|by eauto].
    unfold post_api_claim. destruct (negb _ || negb _); simpl; eauto. }
  destruct (serve rq None) as [r db1]. simpl in *. subst db1.
  destruct (serve_all rqs None) as [rs db2]. simpl in *.
  split; [done|]. by constructor.
Qed.

(** ** Two windows in a row *)

Lemma run_checks_app (cs1 cs2 : list (Z * socket)) (rl : gmap string rl_record) :
  run_checks (cs1 ++ cs2) rl
  = (((run_checks cs1 rl).1 ++ (run_checks cs2 (run_checks cs1 rl).2).1)%list,
     (run_checks cs2 (run_checks cs1 rl).2).2).
Proof.
  revert rl. induction cs1 as [|[now sk] cs1 IH]; intros rl.
  { simpl. by destruct (run_checks cs2 rl). }
  simpl. destruct (isRateLimited now sk rl) as [b rl1]. rewrite IH.
  by destruct (run_checks cs1 rl1).
Qed.

Lemma run_checks_length (cs : list (Z * socket)) (rl : gmap string rl_record) :
  length (run_checks cs rl).1 = length cs.
Proof.
  revert rl. induction cs as [|[now sk] cs IH]; intros rl; [done|].
  simpl. destruct (isRateLimited now sk rl) as [b rl1].
  specialize (IH rl1). destruct (run_checks cs rl1). simpl in *. by rewrite IH.
Qed.

Lemma verdicts_of_app (ip : string) (cs1 cs2 : list (Z * socket))
    (bs1 bs2 : list bool) :
  length bs1 = length cs1 →
  verdicts_of ip (cs1 ++ cs2) (bs1 ++ bs2)
  = (verdicts_of ip cs1 bs1 ++ verdicts_of ip cs2 bs2)%list.
Proof.
  revert bs1. induction cs1 as [|[now sk] cs1 IH]; intros [|b bs1] Hlen;
    try discriminate; [done|].
  simpl. injection Hlen as Hlen. rewrite (IH bs1 Hlen).
  by destruct (decide (address sk = ip)).
Qed.

Lemma verdicts_below_limit (n : nat) :
  (n ≤ 20)%nat →
  Forall (λ b : bool, b = false)
    ((λ i : nat, bool_decide (20 ≤ i)%nat) <$> seq 0 n).
Proof.
  intros Hn. apply Forall_fmap, Forall_forall. intros i Hi.
  apply elem_of_seq in Hi. simpl. apply bool_decide_false. lia.
Qed.

(** X18.  The window is fixed, not sliding.  When an origin makes up to 20
    checks in one window and up to 20 more in the window that the first
    check after it opens, all of them are admitted, however close in time
    the last checks of the first window and the first checks of the second
    are: up to 40 checks can pass in a span far shorter than 60 seconds. *)
Theorem adjacent_windows_admit_twice_the_limit (ip : string)
    (rl : gmap string rl_record) (t1 : Z) (sk1 : socket)
    (cs1 : list (Z * socket)) (t2 : Z) (sk2 : socket) (cs2 : list (Z * socket)) :
  address sk1 = ip → address sk2 = ip →
  opens_window rl ip t1 →
  within_window ip t1 cs1 →
  t2 - t1 > TIME_FRAME →
  within_window ip t2 cs2 →
  (checks_of ip cs1 < 20)%nat → (checks_of ip cs2 < 20)%nat →
  Forall (λ b : bool, b = false)
    (verdicts_of ip (((t1, sk1) :: cs1) ++ (t2, sk2) :: cs2)
       (run_checks (((t1, sk1) :: cs1) ++ (t2, sk2) :: cs2) rl).1).
Proof.
  intros H1 H2 Hopen Hin1 Hlate Hin2 Hn1 Hn2.
  rewrite run_checks_app. cbn [fst].
  rewrite verdicts_of_app by apply run_checks_length.
  destruct (verdicts_from_window_start ip rl t1 sk1 cs1 H1 Hopen Hin1)
    as [Hv1 Hr1].
  assert (opens_window (run_checks ((t1, sk1) :: cs1) rl).2 ip t2) as Hopen2
    by (unfold opens_window; by rewrite Hr1).
  destruct (verdicts_from_window_start ip _ t2 sk2 cs2 H2 Hopen2 Hin2)
    as [Hv2 _].
  rewrite Hv1, Hv2. apply Forall_app. split; apply verdicts_below_limit; lia.
Qed.

(** ** Instances on sample data *)

Lemma gated_events_share_one_budget_witness :
  opens_window (rateLimit init) sample_origin 0
  ∧ Forall (gated_in_window sample_origin 0) sample_gated_events
  ∧ run ((0, sample_socket, Register (VString "carol")) :: sample_gated_events) init
    = run (take 20 ((0, sample_socket, Register (VString "carol"))
                    :: sample_gated_events)) init
  ∧ resolve
      (run ((0, sample_socket, Register (VString "carol")) :: sample_gated_events)
         init).1 "late" = Undefined.
Proof.
  assert (opens_window (rateLimit init) sample_origin 0) as Ho by exact I.
  assert (Forall (gated_in_window sample_origin 0) sample_gated_events) as Hw
    by (apply (bool_decide_unpack _); vm_compute; exact I).
  split; [exact Ho|]. split; [exact Hw|]. split.
  - exact (gated_events_share_one_budget sample_origin 0 sample_socket
             (Register (VString "carol")) sample_gated_events init
             eq_refl eq_refl Ho Hw).
  - vm_compute. reflexivity.
Defined.

Lemma adjacent_windows_admit_twice_the_limit_witness :
  within_window sample_origin 0 burst_first
  ∧ within_window sample_origin 60001 burst_second
  ∧ Forall (λ b : bool, b = false)
      (verdicts_of sample_origin
         (((0, sample_socket) :: burst_first)
          ++ (60001, sample_socket) :: burst_second)
         (run_checks (((0, sample_socket) :: burst_first)
                      ++ (60001, sample_socket) :: burst_second) ∅).1).
Proof.
  assert (within_window sample_origin 0 burst_first) as H1
    by (apply (bool_decide_unpack _); vm_compute; exact I).
  assert (within_window sample_origin 60001 burst_second) as H2
    by (apply (bool_decide_unpack _); vm_compute; exact I).
  assert (opens_window ∅ sample_origin 0) as Ho by exact I.
  split; [exact H1|]. split; [exact H2|].
  apply (adjacent_windows_admit_twice_the_limit sample_origin ∅ 0 sample_socket
           burst_first 60001 sample_socket burst_second eq_refl eq_refl Ho H1).
  - reflexivity.
  - exact H2.
  - vm_compute. lia.
  - vm_compute. lia.
Defined.

Lemma relay_hit_emits_to_target_witness :
  resolve alice_and_bob " alice " = Own "s1"
  ∧ (handle 2 other_socket (RequestConnection " alice " "b o b") alice_and_bob).2
    = [IoTo "s1" "incoming-request" (PFrom (VString "bob"))]
  ∧ (handle 3 sample_socket (CallRequest "bob" "alice" (VString "video"))
       alice_and_bob).2
    = [IoTo "s2" "incoming-call" (PFromCall (VString "alice") (VString "video"))].
Proof.
  assert (resolve alice_and_bob " alice " = Own "s1") as Ha
    by (vm_compute; reflexivity).
  split; [exact Ha|]. split.
  - apply (relay_hit_emits_to_target 2 other_socket
             (RequestConnection " alice " "b o b") " alice " "s1" alice_and_bob
             eq_refl Ha); [discriminate|intros _; vm_compute; reflexivity].
  - apply (relay_hit_emits_to_target 3 sample_socket
             (CallRequest "bob" "alice" (VString "video")) "bob" "s2"
             alice_and_bob eq_refl); [vm_compute; reflexivity|discriminate|].
    intros Hg. discriminate Hg.
Defined.

Lemma handlers_write_only_their_tables_witness :
  userSockets (handle 2 other_socket (Signal "r" (VString "P")) alice_and_bob).1
  = userSockets alice_and_bob
  ∧ (handle 2 other_socket (Register (VString "alice")) alice_and_bob).2 = [].
Proof.
  split.
  - apply (proj1 (handlers_write_only_their_tables 2 other_socket
                    (Signal "r" (VString "P")) alice_and_bob)); discriminate.
  - apply (proj1 (proj2 (proj2 (proj2
             (handlers_write_only_their_tables 2 other_socket
                (Register (VString "alice")) alice_and_bob))))).
    left. by eexists.
Defined.

Lemma resolve_unchanged_by_other_identifiers_witness :
  resolve (handle 2 other_socket (Register (VString "carol")) alice_and_bob).1
    "alice" = resolve alice_and_bob "alice"
  ∧ resolve (handle 2 other_socket Disconnect alice_and_bob).1 "alice"
    = resolve alice_and_bob "alice".
Proof.
  split.
  - apply resolve_unchanged_by_other_identifiers.
    + intros s [= <-]. vm_compute. discriminate.
    + discriminate.
  - apply resolve_unchanged_by_other_identifiers.
    + discriminate.
    + intros _. vm_compute. discriminate.
Defined.

Lemma registry_stays_well_formed_witness :
  registry_wf init
  ∧ registry_wf
      (run [(0, sample_socket, Register (VString " a l i c e "));
            (1, other_socket, Register (VString "alice"));
            (2, sample_socket, Disconnect)] init).1.
Proof.
  split; [exact registry_wf_init|].
  apply registry_stays_well_formed. exact registry_wf_init.
Defined.

Lemma register_then_disconnect_restores_registry_witness :
  replace_ws "c a r o l" ≠ ""
  ∧ allowed 2 sample_socket alice_and_bob
  ∧ userSockets alice_and_bob !! replace_ws "c a r o l" = None
  ∧ userSockets
      (run [(2, sample_socket, Register (VString "c a r o l"));
            (3, sample_socket, Disconnect)] alice_and_bob).1
    = userSockets alice_and_bob.
Proof.
  assert (replace_ws "c a r o l" ≠ "") as HA by (vm_compute; discriminate).
  assert (allowed 2 sample_socket alice_and_bob) as Hadm
    by (vm_compute; reflexivity).
  assert (userSockets alice_and_bob !! replace_ws "c a r o l" = None) as Hn
    by (vm_compute; reflexivity).
  split; [exact HA|]. split; [exact Hadm|]. split; [exact Hn|].
  exact (proj2 (register_then_disconnect_restores_registry alice_and_bob
                  sample_socket "c a r o l" 2 3 HA Hadm) Hn).
Defined.

Lemma joined_socket_receives_broadcasts_witness :
  (id other_socket, "auth", POpaque (VString "P"))
  ∈ delivered
      (run ((0, other_socket, Join "r")
            :: [(1, sample_socket, Register (VString "alice"));
                (2, sample_socket, Join "q")]) init).1
      (handle 3 sample_socket (Auth "r" (VString "P"))
         (run ((0, other_socket, Join "r")
               :: [(1, sample_socket, Register (VString "alice"));
                   (2, sample_socket, Join "q")]) init).1).2.
Proof.
  apply (joined_socket_receives_broadcasts init other_socket sample_socket "r"
           (VString "P") 0 3 _ (Auth "r" (VString "P")) "auth").
  - discriminate.
  - repeat constructor; discriminate.
  - right. by split.
Defined.

Lemma claim_then_resolve_round_trip_witness :
  sample_table !! "bob.syrja" = None
  ∧ serve_all [Claim (VString "bob.syrja") (VString "invite-2");
               Resolve "bob.syrja"] (Some sample_table)
    = ([{| status := 201; json := BClaimed "Address claimed successfully." |};
        {| status := 200; json := BInvite "invite-2" |}],
       Some (<["bob.syrja" := "invite-2"]> sample_table)).
Proof.
  assert (sample_table !! "bob.syrja" = None) as Hfree by (vm_compute; reflexivity).
  split; [exact Hfree|].
  apply claim_then_resolve_round_trip; [discriminate|discriminate|exact Hfree].
Defined.

Lemma claimed_address_is_permanent_witness :
  sample_table !! "alice.syrja" = Some "invite-1"
  ∧ (get_api_resolve "alice.syrja"
       (serve_all [Claim (VString "alice.syrja") (VString "stolen");
                   Claim (VString "bob.syrja") (VString "invite-2")]
          (Some sample_table)).2).1
    = {| status := 200; json := BInvite "invite-1" |}.
Proof.
  assert (sample_table !! "alice.syrja" = Some "invite-1") as Hrow
    by (vm_compute; reflexivity).
  split; [exact Hrow|].
  apply (proj1 (claimed_address_is_permanent sample_table "alice.syrja"
                  "invite-1" _ "other" ltac:(discriminate) ltac:(discriminate)
                  Hrow)).
Defined.

Lemma claim_writes_only_on_success_witness :
  status (post_api_claim (VString "alice.syrja") (VString "stolen")
            (Some sample_table)).1 ≠ 201
  ∧ (post_api_claim (VString "alice.syrja") (VString "stolen")
       (Some sample_table)).2 = Some sample_table.
Proof.
  assert (status (post_api_claim (VString "alice.syrja") (VString "stolen")
                    (Some sample_table)).1 ≠ 201) as Hs
    by (vm_compute; discriminate).
  split; [exact Hs|].
  exact (proj1 (proj2 (proj2 (claim_writes_only_on_success
                                (VString "alice.syrja") (VString "stolen")
                                (Some sample_table))) Hs)).
Defined.

Lemma table_rows_are_never_empty_witness :
  addresses_wf (Some ∅)
  ∧ addresses_wf
      (serve_all [Claim (VString "") (VString "x"); Claim (VString "a") (VString "");
                  Claim (VString "a") (VString "x"); Resolve ""] (Some ∅)).2.
Proof.
  assert (addresses_wf (Some ∅)) as H0.
  { intros t a c [= <-] Hrow. by rewrite lookup_empty in Hrow. }
  split; [exact H0|]. apply table_rows_are_never_empty. exact H0.
Defined.

Lemma claim_leaves_other_addresses_alone_witness :
  (get_api_resolve "alice.syrja"
     (post_api_claim (VString "alice .syrja") (VString "invite-3")
        (Some sample_table)).2).1
  = (get_api_resolve "alice.syrja" (Some sample_table)).1.
Proof.
  apply claim_leaves_other_addresses_alone. discriminate.
Defined.
